(** * File I/O helpers of Adblock Plus ([lib/io.js])

    A shallow embedding of the [IO] object: the line iterator [IO.lines],
    the streaming reader [IO.readFromFile], the chunked atomic writer
    [IO.writeToFile] and [IO.statFile], over a model of the host's
    [OS.File] primitives with fault injection and an event trace. *)

From Stdlib Require Import String Ascii ZArith List Lia Strings.Byte.
From stdpp Require Import gmap strings list.

Local Open Scope string_scope.
Local Open Scope list_scope.
Local Open Scope Z_scope.

(* stdpp blocks the unfolding of string concatenation; the proofs below
   compute with it. *)
#[local] Arguments String.append !s1 s2 : simpl nomatch.

(** ** Text

    A JavaScript string is a sequence of characters; [text.length] counts
    them.  Characters are those of [string]; the code tells them apart only
    as carriage return, line feed or anything else.  Lengths are kept in
    [Z], as the counter [bufLen] is a number. *)

Definition js_length (s : string) : Z := Z.of_nat (String.length s).

(** [Array.prototype.join]: the elements separated by [sep]; the empty
    array joins to the empty string. *)
Fixpoint join (sep : string) (l : list string) : string :=
  match l with
  | [] => ""
  | [x] => x
  | x :: rest => x +:+ sep +:+ join sep rest
  end.

Definition CR : ascii := "013"%char.
Definition LF : ascii := "010"%char.

(** The character class [[^\r\n]] of the regular expression in [IO.lines]
    is the complement of [is_break]. *)
Definition is_break (c : ascii) : bool :=
  (Ascii.eqb c CR || Ascii.eqb c LF)%bool.

(** ** [IO.lines]

    [let regexp = /([^\r\n])+/g] is matched with [regexp.exec(text)] until
    it returns [null]; every [match[0]] is yielded.  The regular expression
    keeps its position in [lastIndex]; here the position is the suffix of
    the text that starts there. *)

(** The greedy [([^\r\n])+] anchored at the head of [s]: the longest prefix
    free of breaks, and what follows it. *)
Fixpoint match_run (s : string) : string * string :=
  match s with
  | "" => ("", "")
  | String c s' =>
      if is_break c then ("", s)
      else let '(m, r) := match_run s' in (String c m, r)
  end.

(** [regexp.exec(text)] from [lastIndex]: the match is tried at every
    position in turn; [None] is JavaScript's [null].  A successful call
    leaves [lastIndex] at the end of the match. *)
Fixpoint regexp_exec (s : string) : option (string * string) :=
  match s with
  | "" => None
  | String c s' => if is_break c then regexp_exec s' else Some (match_run s)
  end.

(** The [while ((match = regexp.exec(text))) yield match[0]] loop.  Each
    match consumes at least one character, so [S (length text)] rounds
    always reach the [null] that ends the loop ([lines_unfold]). *)
Fixpoint lines_loop (fuel : nat) (rest : string) : list string :=
  match fuel with
  | O => []
  | S n =>
      match regexp_exec rest with
      | None => []
      | Some (m, rest') => m :: lines_loop n rest'
      end
  end.

Definition lines (text : string) : list string :=
  lines_loop (S (String.length text)) text.

(** ** Tokens and breaks

    The vocabulary in which the scanner is specified. *)

Fixpoint string_forall (P : ascii -> bool) (s : string) : bool :=
  match s with
  | "" => true
  | String c s' => P c && string_forall P s'
  end.

(** No character of [s] is a carriage return or a line feed. *)
Definition no_break (s : string) : Prop :=
  string_forall (fun c => negb (is_break c)) s = true.

(** [s] consists of carriage returns and line feeds only. *)
Definition only_breaks (s : string) : Prop :=
  string_forall is_break s = true.

(** [s] is at its end or goes on with a break. *)
Definition at_break (s : string) : Prop :=
  match s with
  | "" => True
  | String c _ => is_break c = true
  end.

(** [runs text ts]: [ts] are the maximal runs of non-break characters of
    [text], in the order of the text.  Each token is preceded by breaks
    only (since the previous token, or since the start) and followed by a
    break or the end. *)
Inductive runs : string -> list string -> Prop :=
| runs_done sep :
    only_breaks sep -> runs sep []
| runs_token sep t r ts :
    only_breaks sep -> t <> "" -> no_break t -> at_break r ->
    runs r ts -> runs (sep +:+ t +:+ r) (t :: ts).

(** ** Values exchanged with the host *)

(** An exception or rejection value.  [OS.File.Error] carries the flag
    [becauseNoSuchFile]; on any other value the property is absent, which
    [statFile] reads as false. *)
Record Error := { message : string; becauseNoSuchFile : bool }.

Record nsIFile := { path : string }.

(** What [OS.File.stat] resolves to: [info.isDir] and
    [info.lastModificationDate.getTime()] in milliseconds. *)
Record FileInfo := { isDir : bool; lastModificationDate : Z }.

(** The object [statFile] hands to its callback. *)
Record Stat := {
  exists_ : bool;
  isDirectory : bool;
  isFile : bool;
  lastModified : Z
}.

(** An entry of the file system: its metadata and its bytes. *)
Record Node := { info : FileInfo; content : list byte }.

(** An open [OS.File] instance refers to the path it was opened on; its
    method [flush] is there or not ([typeof f.flush == "function"]). *)
Record OSFile := { fd_path : string; has_flush : bool }.

(** The platform: [Services.appinfo.OS], whether this Gecko exposes
    [OS.File.prototype.flush], and the time the file system stamps on what
    it touches (milliseconds). *)
Record Host := { appinfo_OS : string; flush_exposed : bool; now : Z }.

Inductive PrimOp :=
| OpRead (p : string)
| OpOpen (p : string)
| OpWrite (p : string) (array : list byte)
| OpFlush (p : string)
| OpClose (p : string)
| OpMove (src dst : string)
| OpStat (p : string).

(** What an observer of one operation sees, in order: the calls of the
    [OS.File] primitives with their outcome ([None] is success), the
    [TimeLine] markers, the calls of [listener.process] and the call of the
    completion callback with its arguments. *)
Inductive Event :=
| EvPrim (op : PrimOp) (outcome : option Error)
| EvAsyncStart (id : string)
| EvAsyncEnd (id : string)
| EvAsyncDone (id : string)
| EvProcess (arg : option string)
| EvCallback (error : option Error) (stat : option Stat).

(** A call of a primitive can be made to fail: by throwing at the call, or
    by returning a promise that is rejected.  What is thrown at the call is
    not an [OS.File.Error] (the call is refused before any file is
    touched): it carries no [becauseNoSuchFile]. *)
Inductive Fault :=
| Throws (msg : string)
| Rejects (e : Error).

Definition fault_error (f : Fault) : Error :=
  match f with
  | Throws msg => {| message := msg; becauseNoSuchFile := false |}
  | Rejects e => e
  end.

(** How a computation ends: with a value, or with an exception. *)
Inductive Result (A : Type) :=
| Ok (a : A)
| Throw (e : Error).
Arguments Ok {A} a.
Arguments Throw {A} e.

(** How the call of a promise-returning primitive ends: the promise is
    resolved or rejected, or the call itself throws. *)
Inductive Promise (A : Type) :=
| Resolved (a : A)
| Rejected (e : Error)
| Thrown (e : Error).
Arguments Resolved {A} a.
Arguments Rejected {A} e.
Arguments Thrown {A} e.

Definition BUFFER_SIZE : Z := 0x8000.

Definition ENOENT (p : string) : Error :=
  {| message := p; becauseNoSuchFile := true |}.

Section IO.

(** The host's UTF-8 codec: [TextEncoder.encode] and the decoding done by
    [OS.File.read] with [{encoding: "utf-8"}]. *)
Variable encode : string -> list byte.
Variable decode : list byte -> string.

(** The listener: an object with a state of its own whose [process]
    method returns normally or throws. *)
Variable L : Type.
Variable process : option string -> L -> L * option Error.

(** ** The world

    [faults] schedules the outcome of the primitive calls to come: each call
    takes the head, [None] or an exhausted schedule meaning that the
    primitive does its work. *)
Record World := {
  files : gmap string Node;
  faults : list (option Fault);
  trace : list Event;
  listener : L;
  host : Host
}.

Definition set_files (fs : gmap string Node) (w : World) : World :=
  {| files := fs; faults := faults w; trace := trace w; listener := listener w;
     host := host w |}.

Definition set_faults (fl : list (option Fault)) (w : World) : World :=
  {| files := files w; faults := fl; trace := trace w; listener := listener w;
     host := host w |}.

Definition set_listener (st : L) (w : World) : World :=
  {| files := files w; faults := faults w; trace := trace w; listener := st;
     host := host w |}.

Definition log (ev : Event) (w : World) : World :=
  {| files := files w; faults := faults w; trace := trace w ++ [ev];
     listener := listener w; host := host w |}.

(** ** Control: exceptions, promises and tasks *)

(** A computation that runs to its end or throws. *)
Definition M (A : Type) : Type := World -> Result A * World.

Definition ret {A} (a : A) : M A := fun w => (Ok a, w).

Definition bind {A B} (m : M A) (k : A -> M B) : M B :=
  fun w => match m w with
           | (Ok a, w') => k a w'
           | (Throw e, w') => (Throw e, w')
           end.

Notation "'let!' x ':=' m 'in' k" := (bind m (fun x => k))
  (at level 10, x pattern, m at level 100, k at level 200).

(** [try { m } catch (ex) { h ex }] *)
Definition try_catch {A} (m : M A) (h : Error -> M A) : M A :=
  fun w => match m w with
           | (Ok a, w') => (Ok a, w')
           | (Throw e, w') => h e w'
           end.

(** [task.then(on_ok, on_err)] for the promise of a spawned task. *)
Definition then_ {A B} (task : M A) (on_ok : A -> M B) (on_err : Error -> M B) : M B :=
  fun w => match task w with
           | (Ok a, w') => on_ok a w'
           | (Throw e, w') => on_err e w'
           end.

Definition emit (ev : Event) : M unit := fun w => (Ok tt, log ev w).

Definition Async (A : Type) : Type := World -> Promise A * World.

(** [yield p] inside a task: the value the promise resolves to, or its
    rejection thrown into the generator. *)
Definition yield {A} (p : Async A) : M A :=
  fun w => match p w with
           | (Resolved a, w') => (Ok a, w')
           | (Rejected e, w') => (Throw e, w')
           | (Thrown e, w') => (Throw e, w')
           end.

(** [Promise.resolve()] *)
Definition Promise_resolve : Async unit := fun w => (Resolved tt, w).

(** ** The [OS.File] primitives

    A call first takes its entry of the fault schedule; when it is not
    made to fail it runs [act] on the file system.  Either way the call and
    its outcome are recorded. *)
Definition prim {A} (op : PrimOp)
    (act : Host -> gmap string Node -> Error + A * gmap string Node) : Async A :=
  fun w =>
    let w1 := set_faults (tail (faults w)) w in
    match head (faults w) with
    | Some (Some (Throws msg)) =>
        let e := fault_error (Throws msg) in
        (Thrown e, log (EvPrim op (Some e)) w1)
    | Some (Some (Rejects e)) => (Rejected e, log (EvPrim op (Some e)) w1)
    | _ =>
        match act (host w) (files w) with
        | inl e => (Rejected e, log (EvPrim op (Some e)) w1)
        | inr (a, fs) => (Resolved a, log (EvPrim op None) (set_files fs w1))
        end
    end.

(** [OS.File.read(path, {encoding: "utf-8"})] *)
Definition OS_File_read (p : string) : Async string :=
  prim (OpRead p) (fun _ fs =>
    match fs !! p with
    | None => inl (ENOENT p)
    | Some n => inr (decode (content n), fs)
    end).

(** [OS.File.open(path, {write: true, truncate: true})] leaves an empty
    regular file at [path]. *)
Definition OS_File_open (p : string) : Async OSFile :=
  prim (OpOpen p) (fun h fs =>
    inr ({| fd_path := p; has_flush := flush_exposed h |},
         <[p := {| info := {| isDir := false; lastModificationDate := now h |};
                   content := [] |}]> fs)).

(** [f.write(array)] appends to the file the instance refers to. *)
Definition f_write (f : OSFile) (array : list byte) : Async unit :=
  prim (OpWrite (fd_path f) array) (fun h fs =>
    inr (tt, alter (fun n =>
               {| info := {| isDir := isDir (info n); lastModificationDate := now h |};
                  content := content n ++ array |}) (fd_path f) fs)).

Definition f_flush (f : OSFile) : Async unit :=
  prim (OpFlush (fd_path f)) (fun _ fs => inr (tt, fs)).

Definition f_close (f : OSFile) : Async unit :=
  prim (OpClose (fd_path f)) (fun _ fs => inr (tt, fs)).

(** [OS.File.move(src, dst, {noCopy: true})]: a rename, in one step. *)
Definition OS_File_move (src dst : string) : Async unit :=
  prim (OpMove src dst) (fun _ fs =>
    match fs !! src with
    | None => inl (ENOENT src)
    | Some n => inr (tt, <[dst := n]> (delete src fs))
    end).

(** [OS.File.stat(path)] *)
Definition OS_File_stat (p : string) : Async FileInfo :=
  prim (OpStat p) (fun _ fs =>
    match fs !! p with
    | None => inl (ENOENT p)
    | Some n => inr (info n, fs)
    end).

(** ** [TimeLine], the listener and the callback *)

(** [if (timeLineID) { hook(timeLineID); }]: [undefined] and the empty
    string are falsy. *)
Definition truthy (timeLineID : option string) : bool :=
  match timeLineID with
  | Some id => negb (String.eqb id "")
  | None => false
  end.

Definition if_timeLineID (timeLineID : option string) (hook : string -> Event) : M unit :=
  if truthy timeLineID then
    match timeLineID with
    | Some id => emit (hook id)
    | None => ret tt
    end
  else ret tt.

(** [listener.process(arg)]; [None] is [null]. *)
Definition listener_process (arg : option string) : M unit :=
  fun w =>
    let '(st, ex) := process arg (listener w) in
    let w' := log (EvProcess arg) (set_listener st w) in
    match ex with
    | Some e => (Throw e, w')
    | None => (Ok tt, w')
    end.

Definition callback (error : option Error) (stat : option Stat) : M unit :=
  emit (EvCallback error stat).

(** ** [IO.lineBreak]

    Computed on first access from [Services.appinfo.OS] and cached; the
    platform does not change, so the cached value is this one. *)
Definition lineBreak (h : Host) : string :=
  if String.eqb (appinfo_OS h) "WINNT" then String CR (String LF "") else String LF "".

Definition IO_lineBreak : M string := fun w => (Ok (lineBreak (host w)), w).

(** ** [IO.readFromFile] *)

(** [for (let line of this.lines(text)) { listener.process(line); yield Promise.resolve(); }] *)
Fixpoint deliver (ls : list string) : M unit :=
  match ls with
  | [] => ret tt
  | line :: rest =>
      let! _ := listener_process (Some line) in
      let! _ := yield Promise_resolve in
      deliver rest
  end.

(** The generator handed to [Task.spawn]: whatever is thrown between
    [try] and [catch] -- by the read, or by the listener -- ends up in
    [result]. *)
Definition readFromFile (file : nsIFile) (timeLineID : option string) : M unit :=
  let! result :=
    try_catch
      (let! _ := if_timeLineID timeLineID EvAsyncStart in
       let! text := yield (OS_File_read (path file)) in
       let! _ := if_timeLineID timeLineID EvAsyncEnd in
       let! _ := deliver (lines text) in
       let! _ := listener_process None in
       ret None)
      (fun ex => ret (Some ex)) in
  let! _ := if_timeLineID timeLineID EvAsyncDone in
  callback result None.

(** ** [IO.writeToFile] *)

(** The closure [writeChunk] over [buf], [bufLen], [lineBreak] and [f]:
    the buffer is emptied before the write is issued. *)
Definition writeChunk (f : OSFile) (lb : string) (buf : list string) (bufLen : Z)
    : M (list string * Z) :=
  let array := encode (join lb buf +:+ lb) in
  let buf := @nil string in
  let bufLen := 0 in
  let! _ := yield (f_write f array) in
  ret (buf, bufLen).

(** One round of [for (let line in data)]. *)
Definition write_line (f : OSFile) (lb : string) (line : string)
    (buf : list string) (bufLen : Z) : M (list string * Z) :=
  let buf := (buf ++ [line]) in
  let bufLen := bufLen + js_length line in
  if bufLen >=? BUFFER_SIZE then writeChunk f lb buf bufLen
  else ret (buf, bufLen).

Fixpoint write_lines (f : OSFile) (lb : string) (data : list string)
    (buf : list string) (bufLen : Z) : M (list string * Z) :=
  match data with
  | [] => ret (buf, bufLen)
  | line :: rest =>
      let! (buf, bufLen) := write_line f lb line buf bufLen in
      write_lines f lb rest buf bufLen
  end.

(** The generator handed to [Task.spawn]. *)
Definition writeToFile_task (file : nsIFile) (data : list string) : M unit :=
  let tmpPath := path file +:+ ".tmp" in
  let! f := yield (OS_File_open tmpPath) in
  let! lb := IO_lineBreak in
  let! (buf, bufLen) := write_lines f lb data [] 0 in
  let! _ := (if bufLen =? 0 then ret (buf, bufLen) else writeChunk f lb buf bufLen) in
  let! _ := (if has_flush f then yield (f_flush f) else ret tt) in
  let! _ := yield (f_close f) in
  yield (OS_File_move tmpPath (path file)).

(** [Task.spawn(...).then(callback.bind(null, null), callback)] inside
    [try { ... } catch (e) { callback(e); }].  The task turns whatever its
    generator throws into a rejection, so nothing reaches the outer
    handler from it.  The source does not use its parameter [timeLineID]. *)
Definition writeToFile (file : nsIFile) (data : list string) : M unit :=
  try_catch
    (then_ (writeToFile_task file data)
       (fun _ => callback None None)
       (fun e => callback (Some e) None))
    (fun e => callback (Some e) None).

(** ** [IO.statFile] *)

(** [promise.then(onSuccess, onError)] on the promise of [OS.File.stat],
    inside [try { ... } catch (e) { callback(e); }]: the handler of the
    [catch] is the case in which the call itself throws. *)
Definition statFile (file : nsIFile) : M unit :=
  fun w =>
    match OS_File_stat (path file) w with
    | (Resolved info, w') =>
        callback None (Some {| exists_ := true;
                               isDirectory := isDir info;
                               isFile := negb (isDir info);
                               lastModified := lastModificationDate info |}) w'
    | (Rejected e, w') =>
        if becauseNoSuchFile e then
          callback None (Some {| exists_ := false;
                                 isDirectory := false;
                                 isFile := false;
                                 lastModified := 0 |}) w'
        else callback (Some e) None w'
    | (Thrown e, w') => callback (Some e) None w'
    end.

(** ** [IO.copyFile], [IO.renameFile], [IO.removeFile] *)

(** [OS.File.copy] and [OS.File.remove] take their entry of the fault
    schedule and work on the files like the other primitives.  [PrimOp] names
    the primitives of the reader, the writer and [statFile]; for these two
    the trace keeps no event: what they do shows in the files and in the
    call of the callback. *)
Definition unrecorded {A}
    (act : Host -> gmap string Node -> Error + A * gmap string Node) : Async A :=
  fun w =>
    let w1 := set_faults (tail (faults w)) w in
    match head (faults w) with
    | Some (Some (Throws msg)) => (Thrown (fault_error (Throws msg)), w1)
    | Some (Some (Rejects e)) => (Rejected e, w1)
    | _ =>
        match act (host w) (files w) with
        | inl e => (Rejected e, w1)
        | inr (a, fs) => (Resolved a, set_files fs w1)
        end
    end.

(** [OS.File.copy(src, dst)]: [dst] is created or overwritten with the
    bytes of [src]. *)
Definition OS_File_copy (src dst : string) : Async unit :=
  unrecorded (fun h fs =>
    match fs !! src with
    | None => inl (ENOENT src)
    | Some n =>
        inr (tt, <[dst := {| info := {| isDir := isDir (info n);
                                        lastModificationDate := now h |};
                             content := content n |}]> fs)
    end).

(** [OS.File.remove(path)], failing on a path at which there is nothing. *)
Definition OS_File_remove (p : string) : Async unit :=
  unrecorded (fun _ fs =>
    match fs !! p with
    | None => inl (ENOENT p)
    | Some _ => inr (tt, delete p fs)
    end).

(** The body the three operations share:
    [try { let promise = call; promise.then(callback.bind(null, null), callback); }
     catch (e) { callback(e); }] *)
Definition settle {A} (call : Async A) : M unit :=
  fun w =>
    match call w with
    | (Resolved _, w') => callback None None w'
    | (Rejected e, w') => callback (Some e) None w'
    | (Thrown e, w') => callback (Some e) None w'
    end.

Definition copyFile (fromFile toFile : nsIFile) : M unit :=
  settle (OS_File_copy (path fromFile) (path toFile)).

(** What the code asks of XPCOM: [new FileUtils.File(path)],
    [FileUtils.getFile(key, pathArray)] and
    [toFile = fromFile.clone(); toFile.leafName = newName]; each gives a
    file or throws. *)
Record XPCOM := {
  FileUtils_File : string -> Error + nsIFile;
  FileUtils_getFile : string -> list string -> Error + nsIFile;
  clone_leafName : nsIFile -> string -> Error + nsIFile
}.

Definition renameFile (x : XPCOM) (fromFile : nsIFile) (newName : string) : M unit :=
  match clone_leafName x fromFile newName with
  | inl e => callback (Some e) None
  | inr toFile => settle (OS_File_move (path fromFile) (path toFile))
  end.

Definition removeFile (file : nsIFile) : M unit :=
  settle (OS_File_remove (path file)).

(** ** [IO.resolveFilePath] *)

Definition SLASH : ascii := "/"%char.

(** [path.split("/")]: the pieces between the slashes, empty ones
    included; a text without slash is its only piece. *)
Fixpoint split_slash (s : string) : list string :=
  match s with
  | "" => [""]
  | String c s' =>
      if Ascii.eqb c SLASH then "" :: split_slash s'
      else match split_slash s' with
           | piece :: pieces => String c piece :: pieces
           | [] => [String c ""]
           end
  end.

(** [if (!path) return null], then the two attempts, each in a [try]
    whose [catch] is empty. *)
Definition resolveFilePath (x : XPCOM) (path : option string) : option nsIFile :=
  if negb (truthy path) then None
  else
    match path with
    | None => None
    | Some p =>
        match FileUtils_File x p with
        | inr file => Some file
        | inl _ =>
            match FileUtils_getFile x "ProfD" (split_slash p) with
            | inr file => Some file
            | inl _ => None
            end
        end
    end.

(** ** The getter [IO.lineBreak]

    [get lineBreak() { let lineBreak = ...; delete IO.lineBreak;
    IO.__defineGetter__("lineBreak", function() lineBreak); return IO.lineBreak; }].
    The state of the property is the value the redefined getter returns,
    [None] as long as the first getter is in place. *)
Definition lineBreak_get (h : Host) (defined : option string) : string * option string :=
  match defined with
  | None => let lb := lineBreak h in (lb, Some lb)
  | Some lb => (lb, Some lb)
  end.

(** Accesses one after the other, the platform reporting [hs] in turn. *)
Fixpoint lineBreak_accesses (hs : list Host) (defined : option string) : list string :=
  match hs with
  | [] => []
  | h :: rest =>
      let '(lb, defined') := lineBreak_get h defined in
      lb :: lineBreak_accesses rest defined'
  end.

(** * Specification vocabulary *)

(** The world after an operation, as seen from the world [w] it started
    in: the events [evs] have been appended to the trace. *)
Definition upd (w : World) (fs : gmap string Node) (fl : list (option Fault))
    (evs : list Event) (st : L) : World :=
  {| files := fs; faults := fl; trace := trace w ++ evs; listener := st;
     host := host w |}.

(** The next primitive call is not made to fail. *)
Definition not_failing (fl : list (option Fault)) : Prop :=
  match fl with
  | Some _ :: _ => False
  | _ => True
  end.

(** The events of a [TimeLine] marker guarded by [if (timeLineID)]. *)
Definition marker (timeLineID : option string) (hook : string -> Event) : list Event :=
  if truthy timeLineID then
    match timeLineID with Some id => [hook id] | None => [] end
  else [].

(** The arguments of the calls of [listener.process] in a trace. *)
Fixpoint process_calls (evs : list Event) : list (option string) :=
  match evs with
  | [] => []
  | EvProcess arg :: rest => arg :: process_calls rest
  | _ :: rest => process_calls rest
  end.

(** [accepts st args st']: started in state [st], the listener returns
    normally from the calls [args], in this order, and ends in [st']. *)
Inductive accepts : L -> list (option string) -> L -> Prop :=
| accepts_nil st : accepts st [] st
| accepts_cons st arg st1 args st2 :
    process arg st = (st1, None) -> accepts st1 args st2 ->
    accepts st (arg :: args) st2.

(** The listener run on [args] up to its first exception: the calls made,
    its last state and the exception. *)
Fixpoint consume (args : list (option string)) (st : L)
    : list (option string) * L * option Error :=
  match args with
  | [] => ([], st, None)
  | arg :: rest =>
      match process arg st with
      | (st1, Some ex) => ([arg], st1, Some ex)
      | (st1, None) =>
          let '(calls, st2, r) := consume rest st1 in (arg :: calls, st2, r)
      end
  end.

(** How the read of [p] ends in a world with files [fs] and schedule [fl]. *)
Definition read_outcome (fs : gmap string Node) (fl : list (option Fault))
    (p : string) : Error + string :=
  match head fl with
  | Some (Some f) => inl (fault_error f)
  | _ =>
      match fs !! p with
      | None => inl (ENOENT p)
      | Some n => inr (decode (content n))
      end
  end.

(** The failure a call of a primitive ended in, if any. *)
Definition failure {A} (pr : Promise A) : option Error :=
  match pr with
  | Resolved _ => None
  | Rejected e => Some e
  | Thrown e => Some e
  end.

(** The [Stat] of a path at which there is nothing. *)
Definition missing_stat : Stat :=
  {| exists_ := false; isDirectory := false; isFile := false; lastModified := 0 |}.

(** An event is the successful call of a primitive. *)
Definition prim_succeeded (ev : Event) : Prop :=
  match ev with
  | EvPrim _ None => True
  | _ => False
  end.

Definition is_callback (ev : Event) : Prop :=
  match ev with
  | EvCallback _ _ => True
  | _ => False
  end.

(** The host's codec is a faithful one: decoding undoes encoding, and the
    encoding of a text is the encodings of its parts one after the other. *)
Definition faithful_codec : Prop :=
  (forall s, decode (encode s) = s) /\
  (forall s t, encode (s +:+ t) = encode s ++ encode t).

(** The text of [data] with a line break after every line. *)
Fixpoint text_of (lb : string) (data : list string) : string :=
  match data with
  | [] => ""
  | line :: rest => line +:+ lb +:+ text_of lb rest
  end.

(** The loop of [writeToFile] when no write fails: the arrays written on
    the way and the buffer and counter left at the end. *)
Fixpoint chunked (lb : string) (data : list string) (buf : list string) (bufLen : Z)
    : list (list byte) * (list string * Z) :=
  match data with
  | [] => ([], (buf, bufLen))
  | line :: rest =>
      if bufLen + js_length line >=? BUFFER_SIZE then
        let '(arrays, st) := chunked lb rest [] 0 in
        (encode (join lb (buf ++ [line]) +:+ lb) :: arrays, st)
      else chunked lb rest (buf ++ [line]) (bufLen + js_length line)
  end.

(** All arrays [writeToFile] writes when no write fails: those of the loop
    and the final one. *)
Definition written (lb : string) (data : list string) : list (list byte) :=
  let '(arrays, (buf, bufLen)) := chunked lb data [] 0 in
  arrays ++ (if bufLen =? 0 then [] else [encode (join lb buf +:+ lb)]).

(** The file [OS.File.open] creates at [mtime], holding [bytes]. *)
Definition regular (mtime : Z) (bytes : list byte) : Node :=
  {| info := {| isDir := false; lastModificationDate := mtime |}; content := bytes |}.

(** The events of [readFromFile], from the files, the fault schedule and
    the listener's state it starts with. *)
Definition reader_events (fs : gmap string Node) (fl : list (option Fault)) (st : L)
    (file : nsIFile) (tid : option string) : list Event :=
  marker tid EvAsyncStart ++
  match read_outcome fs fl (path file) with
  | inl e =>
      [EvPrim (OpRead (path file)) (Some e)] ++
      marker tid EvAsyncDone ++ [EvCallback (Some e) None]
  | inr text =>
      [EvPrim (OpRead (path file)) None] ++ marker tid EvAsyncEnd ++
      map EvProcess (consume (map Some (lines text) ++ [None]) st).1.1 ++
      marker tid EvAsyncDone ++
      [EvCallback (consume (map Some (lines text) ++ [None]) st).2 None]
  end.

Definition reader_listener (fs : gmap string Node) (fl : list (option Fault)) (st : L)
    (file : nsIFile) : L :=
  match read_outcome fs fl (path file) with
  | inl _ => st
  | inr text => (consume (map Some (lines text) ++ [None]) st).1.2
  end.

(** The events of a [writeToFile] in which no primitive fails. *)
Definition writer_events (w : World) (file : nsIFile) (data : list string) : list Event :=
  let tmp := path file +:+ ".tmp" in
  [EvPrim (OpOpen tmp) None] ++
  map (fun a => EvPrim (OpWrite tmp a) None) (written (lineBreak (host w)) data) ++
  (if flush_exposed (host w) then [EvPrim (OpFlush tmp) None] else []) ++
  [EvPrim (OpClose tmp) None; EvPrim (OpMove tmp (path file)) None; EvCallback None None].

(** The characters of [data], as [bufLen] counts them. *)
Fixpoint total_length (data : list string) : Z :=
  match data with
  | [] => 0
  | line :: rest => js_length line + total_length rest
  end.

Definition err {A} (r : Result A) : option Error :=
  match r with
  | Ok _ => None
  | Throw e => Some e
  end.

(** [clean evs failed]: the events [evs] are calls of primitives that
    succeeded, but for the last when [failed] names its failure. *)
Definition clean (evs : list Event) (failed : option Error) : Prop :=
  match failed with
  | None => Forall prim_succeeded evs
  | Some e =>
      exists evs0 op, evs = evs0 ++ [EvPrim op (Some e)] /\ Forall prim_succeeded evs0
  end.

(** Every path but [tmp] holds in [fs'] what it held in [fs]. *)
Definition same_except (tmp : string) (fs fs' : gmap string Node) : Prop :=
  forall q, q <> tmp -> fs' !! q = fs !! q.

(** [steps tmp strict m w]: run in [w], [m] calls primitives only and stops
    at the first that fails, throwing its failure; when it throws -- and,
    if [strict], also when it returns -- no path but [tmp] has changed. *)
Definition steps {A} (tmp : string) (strict : bool) (m : M A) (w : World) : Prop :=
  exists evs,
    trace (m w).2 = trace w ++ evs /\
    clean evs (err (m w).1) /\
    (strict = true \/ err (m w).1 <> None -> same_except tmp (files w) (files (m w).2)).

(** [untouched P w w']: from [w] to [w'] no path outside [P] has changed,
    nor the platform, nor the listener. *)
Definition untouched (P : string -> Prop) (w w' : World) : Prop :=
  (forall q, ~ P q -> files w' !! q = files w !! q) /\
  host w' = host w /\ listener w' = listener w.

(** [m] is confined to the paths [P] in whatever world it runs. *)
Definition confined {A} (P : string -> Prop) (m : M A) : Prop :=
  forall w, untouched P w (m w).2.

(** How the call of a primitive without event ends, and the files it
    leaves. *)
Definition op_outcome {A}
    (act : Host -> gmap string Node -> Error + A * gmap string Node)
    (h : Host) (fs : gmap string Node) (fl : list (option Fault))
    : option Error * gmap string Node :=
  match head fl with
  | Some (Some f) => (Some (fault_error f), fs)
  | _ =>
      match act h fs with
      | inl e => (Some e, fs)
      | inr (_, fs') => (None, fs')
      end
  end.

(** No character of [s] is a slash. *)
Definition slash_free (s : string) : Prop :=
  string_forall (fun c => negb (Ascii.eqb c SLASH)) s = true.

(** * Concrete values

    The inputs at which the properties below are exercised. *)

(** A codec for texts of 8-bit characters: each character is its byte. *)
Definition ascii_encode : string -> list byte := list_byte_of_string.
Definition ascii_decode : list byte -> string := string_of_list_byte.

(** A listener that takes every call, and one that throws [ex] at the
    line [bad]; neither keeps a state. *)
Definition recorder : option string -> unit -> unit * option Error :=
  fun _ st => (st, None).

Definition refusing (bad : string) (ex : Error) : option string -> unit -> unit * option Error :=
  fun arg st =>
    match arg with
    | Some line => (st, if String.eqb line bad then Some ex else None)
    | None => (st, None)
    end.

Definition linux : Host :=
  {| appinfo_OS := "Linux"; flush_exposed := true; now := 1400000000000 |}.

Definition winnt : Host :=
  {| appinfo_OS := "WINNT"; flush_exposed := false; now := 1400000000000 |}.

(** A world with an empty trace. *)
Definition boot (h : Host) (fs : gmap string Node) (fl : list (option Fault)) (st : L) : World :=
  {| files := fs; faults := fl; trace := []; listener := st; host := h |}.

Definition patterns_ini : nsIFile := {| path := "/profile/patterns.ini" |}.
Definition patterns_tmp : string := "/profile/patterns.ini.tmp".

Definition holding (text : string) : gmap string Node :=
  {[ "/profile/patterns.ini" := regular 0 (ascii_encode text) ]}.

Definition scenario_text : string :=
  String "x" (String LF (String LF (String "y" (String LF "")))).

Definition disk_full : Error := {| message := "no space left"; becauseNoSuchFile := false |}.
Definition bad_filter : Error := {| message := "bad filter"; becauseNoSuchFile := false |}.

(** A line of 40,000 characters. *)
Definition line40k : string := string_of_list_ascii (repeat "a"%char (Z.to_nat 40000)).

Definition unrecognized_path : Error :=
  {| message := "NS_ERROR_FILE_UNRECOGNIZED_PATH"; becauseNoSuchFile := false |}.

(** An XPCOM for paths with slashes: a path is absolute when it starts
    with a slash, the profile directory is [/profile], and a new leaf name
    takes the place of the last piece of the path. *)
Definition unix : XPCOM :=
  {| FileUtils_File := fun p =>
       match p with
       | String c _ => if Ascii.eqb c SLASH then inr {| path := p |}
                       else inl unrecognized_path
       | "" => inl unrecognized_path
       end;
     FileUtils_getFile := fun key pieces =>
       if String.eqb key "ProfD"
       then inr {| path := "/profile/" +:+ join (String SLASH "") pieces |}
       else inl unrecognized_path;
     clone_leafName := fun file name =>
       if String.eqb name "" then inl unrecognized_path
       else inr {| path := join (String SLASH "")
                             (removelast (split_slash (path file)) ++ [name]) |} |}.

Definition backup_ini : nsIFile := {| path := "/profile/patterns-backup1.ini" |}.

(** * Properties *)

(** ** Strings *)

Lemma string_app_assoc (a b c : string) : (a +:+ b) +:+ c = a +:+ b +:+ c.
Proof. induction a as [|x a IH]; simpl; [reflexivity | now rewrite IH]. Qed.

Lemma string_app_nil_r (a : string) : a +:+ "" = a.
Proof. induction a as [|x a IH]; simpl; [reflexivity | now rewrite IH]. Qed.

Lemma string_length_app (a b : string) :
  String.length (a +:+ b) = (String.length a + String.length b)%nat.
Proof. induction a as [|x a IH]; simpl; [reflexivity | now rewrite IH]. Qed.

Lemma string_forall_app P (a b : string) :
  string_forall P (a +:+ b) = string_forall P a && string_forall P b.
Proof.
  induction a as [|x a IH]; simpl; [reflexivity|].
  rewrite IH. now rewrite andb_assoc.
Qed.

Lemma is_break_spec c : is_break c = true <-> c = CR \/ c = LF.
Proof.
  unfold is_break. rewrite orb_true_iff, !Ascii.eqb_eq. reflexivity.
Qed.

Lemma no_break_In (s : string) :
  no_break s <->
  ~ In CR (list_ascii_of_string s) /\ ~ In LF (list_ascii_of_string s).
Proof.
  unfold no_break. induction s as [|c s IH]; simpl.
  - intuition.
  - rewrite andb_true_iff, IH, negb_true_iff.
    destruct (is_break c) eqn:Hc.
    + apply is_break_spec in Hc. intuition (try discriminate; subst; tauto).
    + assert (c <> CR /\ c <> LF) as [? ?].
      { split; intros ->; vm_compute in Hc; discriminate. }
      intuition congruence.
Qed.

(** ** The regular expression *)

Example lines_scenario : lines scenario_text = ["x"; "y"].
Proof. reflexivity. Qed.

Lemma match_run_spec (s : string) :
  let '(m, r) := match_run s in
  s = m +:+ r /\ no_break m /\ at_break r.
Proof.
  induction s as [|c s IH]; simpl.
  - repeat split.
  - destruct (is_break c) eqn:Hc.
    + repeat split. simpl. exact Hc.
    + destruct (match_run s) as [m r]. destruct IH as (-> & Hm & Hr).
      repeat split; [|exact Hr]. unfold no_break. simpl. rewrite Hc. exact Hm.
Qed.

Lemma regexp_exec_None (s : string) :
  regexp_exec s = None -> only_breaks s.
Proof.
  unfold only_breaks. induction s as [|c s IH]; simpl; [reflexivity|].
  destruct (is_break c) eqn:Hc; simpl.
  - exact IH.
  - destruct (match_run s); discriminate.
Qed.

Lemma regexp_exec_Some (s m r : string) :
  regexp_exec s = Some (m, r) ->
  exists sep, s = sep +:+ m +:+ r /\ only_breaks sep /\ m <> "" /\
              no_break m /\ at_break r.
Proof.
  induction s as [|c s IH]; simpl; [discriminate|].
  destruct (is_break c) eqn:Hc.
  - intros H. destruct (IH H) as (sep & -> & Hsep & Hm).
    exists (String c sep). split; [reflexivity|]. split; [|exact Hm].
    unfold only_breaks. simpl. rewrite Hc. exact Hsep.
  - pose proof (match_run_spec s) as Hs.
    destruct (match_run s) as [m' r']. intros [= <- <-].
    destruct Hs as (-> & Hm & Hr). exists "". simpl.
    repeat split; [discriminate| |exact Hr].
    unfold no_break. simpl. rewrite Hc. exact Hm.
Qed.

Lemma regexp_exec_shorter (s m r : string) :
  regexp_exec s = Some (m, r) -> (String.length r < String.length s)%nat.
Proof.
  intros H. destruct (regexp_exec_Some _ _ _ H) as (sep & -> & _ & Hm & _).
  rewrite !string_length_app. destruct m; [congruence | simpl; lia].
Qed.

(** The fuel of [lines] never runs out: the loop is the plain [while]. *)
Lemma lines_loop_fuel (n k : nat) (s : string) :
  (String.length s < n)%nat -> (String.length s < k)%nat ->
  lines_loop n s = lines_loop k s.
Proof.
  revert k s. induction n as [|n IH]; intros k s Hn Hk; [lia|].
  destruct k as [|k]; [lia|]. simpl.
  destruct (regexp_exec s) as [[m r]|] eqn:E; [|reflexivity].
  apply regexp_exec_shorter in E. f_equal. apply IH; lia.
Qed.

Lemma lines_unfold (text : string) :
  lines text =
  match regexp_exec text with
  | None => []
  | Some (m, rest) => m :: lines rest
  end.
Proof.
  unfold lines at 1. simpl.
  destruct (regexp_exec text) as [[m r]|] eqn:E; [|reflexivity].
  apply regexp_exec_shorter in E. f_equal. apply lines_loop_fuel; lia.
Qed.

Lemma regexp_exec_breaks (sep s : string) :
  only_breaks sep -> regexp_exec (sep +:+ s) = regexp_exec s.
Proof.
  unfold only_breaks. induction sep as [|c sep IH]; simpl; [reflexivity|].
  intros [Hc Hsep]%andb_true_iff. rewrite Hc. auto.
Qed.

Lemma match_run_token (t r : string) :
  no_break t -> at_break r -> match_run (t +:+ r) = (t, r).
Proof.
  unfold no_break. induction t as [|c t IH]; simpl.
  - intros _ Hr. destruct r as [|c r]; simpl in *; [reflexivity | now rewrite Hr].
  - intros [Hc Ht]%andb_true_iff Hr. apply negb_true_iff in Hc.
    rewrite Hc, IH; auto.
Qed.

Lemma regexp_exec_token (sep t r : string) :
  only_breaks sep -> t <> "" -> no_break t -> at_break r ->
  regexp_exec (sep +:+ t +:+ r) = Some (t, r).
Proof.
  intros Hsep Hne Ht Hr. rewrite regexp_exec_breaks by exact Hsep.
  pose proof (match_run_token t r Ht Hr) as Hrun.
  destruct t as [|c t]; [congruence|].
  unfold no_break in Ht. simpl in Ht. apply andb_true_iff in Ht as [Hc _].
  apply negb_true_iff in Hc. cbn [append regexp_exec]. rewrite Hc.
  f_equal. exact Hrun.
Qed.

(** The scanner computes the maximal runs ... *)
Lemma lines_runs (text : string) : runs text (lines text).
Proof.
  remember (String.length text) as n eqn:Hn.
  revert text Hn. induction n as [n IH] using lt_wf_ind. intros text ->.
  rewrite lines_unfold.
  destruct (regexp_exec text) as [[m r]|] eqn:E.
  - pose proof (regexp_exec_shorter _ _ _ E) as Hlt.
    destruct (regexp_exec_Some _ _ _ E) as (sep & -> & Hsep & Hne & Hm & Hr).
    apply runs_token; auto. eapply IH; [exact Hlt | reflexivity].
  - apply runs_done, regexp_exec_None, E.
Qed.

(** ... and nothing else does: the decomposition determines the tokens. *)
Lemma runs_lines (text : string) (ts : list string) :
  runs text ts -> lines text = ts.
Proof.
  induction 1 as [sep Hsep | sep t r ts Hsep Hne Ht Hr _ IH].
  - rewrite lines_unfold.
    replace sep with (sep +:+ "") by apply string_app_nil_r.
    now rewrite regexp_exec_breaks.
  - rewrite lines_unfold, regexp_exec_token by assumption. now rewrite IH.
Qed.

(** C4: every token of [IO.lines] is non-empty and holds neither a
    carriage return nor a line feed; the tokens are the maximal runs of
    non-break characters of the text in source order, blank lines leaving no
    token; the empty text gives the empty sequence. *)
Theorem lines_tokens (text : string) :
  Forall (fun t => t <> "" /\
                   ~ In CR (list_ascii_of_string t) /\
                   ~ In LF (list_ascii_of_string t)) (lines text) /\
  runs text (lines text) /\
  (forall ts, runs text ts -> ts = lines text) /\
  lines "" = [].
Proof.
  split; [|split; [apply lines_runs | split; [|reflexivity]]].
  - pose proof (lines_runs text) as H.
    induction H as [|sep t r ts _ Hne Ht _ _ IH]; constructor; auto.
    split; [exact Hne | now apply no_break_In].
  - intros ts H. symmetry. now apply runs_lines.
Qed.

(** ** Worlds *)

Lemma upd_id (w : World) :
  upd w (files w) (faults w) [] (listener w) = w.
Proof. destruct w. unfold upd. simpl. now rewrite app_nil_r. Qed.

Lemma upd_upd (w : World) fs fl evs st fs' fl' evs' st' :
  upd (upd w fs fl evs st) fs' fl' evs' st' = upd w fs' fl' (evs ++ evs') st'.
Proof. unfold upd. simpl. now rewrite app_assoc. Qed.

Lemma log_upd ev (w : World) fs fl evs st :
  log ev (upd w fs fl evs st) = upd w fs fl (evs ++ [ev]) st.
Proof. unfold log, upd. simpl. now rewrite app_assoc. Qed.

Lemma set_files_upd fs' (w : World) fs fl evs st :
  set_files fs' (upd w fs fl evs st) = upd w fs' fl evs st.
Proof. reflexivity. Qed.

Lemma set_faults_upd fl' (w : World) fs fl evs st :
  set_faults fl' (upd w fs fl evs st) = upd w fs fl' evs st.
Proof. reflexivity. Qed.

Lemma set_listener_upd st' (w : World) fs fl evs st :
  set_listener st' (upd w fs fl evs st) = upd w fs fl evs st'.
Proof. reflexivity. Qed.

Lemma marker_truthy (id : string) (hook : string -> Event) :
  id <> "" -> marker (Some id) hook = [hook id].
Proof.
  intros Hid. unfold marker, truthy.
  apply String.eqb_neq in Hid. now rewrite Hid.
Qed.

Lemma process_calls_app (evs1 evs2 : list Event) :
  process_calls (evs1 ++ evs2) = process_calls evs1 ++ process_calls evs2.
Proof.
  induction evs1 as [|ev evs1 IH]; simpl; [reflexivity|].
  destruct ev; simpl; now rewrite ?IH.
Qed.

Lemma process_calls_map (args : list (option string)) :
  process_calls (map EvProcess args) = args.
Proof. induction args as [|a args IH]; simpl; now rewrite ?IH. Qed.

Lemma process_calls_marker tid hook :
  (forall id arg, hook id <> EvProcess arg) -> process_calls (marker tid hook) = [].
Proof.
  intros Hhook. unfold marker. destruct (truthy tid); [|reflexivity].
  destruct tid as [id|]; [|reflexivity]. simpl.
  specialize (Hhook id). destruct (hook id); try reflexivity.
  now contradiction (Hhook arg).
Qed.

(** ** The listener *)

Lemma consume_accepts st args st' :
  accepts st args st' -> consume args st = (args, st', None).
Proof.
  induction 1 as [|st arg st1 args st2 Hp _ IH]; simpl; [reflexivity|].
  now rewrite Hp, IH.
Qed.

Lemma consume_throws st pre st1 arg st2 ex post :
  accepts st pre st1 -> process arg st1 = (st2, Some ex) ->
  consume (pre ++ arg :: post) st = (pre ++ [arg], st2, Some ex).
Proof.
  induction 1 as [|st a sta args stb Hp _ IH]; simpl; intros Hex.
  - now rewrite Hex.
  - now rewrite Hp, IH.
Qed.

(** ** Running the reader *)

Lemma if_timeLineID_run tid hook w fs fl evs st :
  if_timeLineID tid hook (upd w fs fl evs st) =
  (Ok tt, upd w fs fl (evs ++ marker tid hook) st).
Proof.
  unfold if_timeLineID, marker. destruct (truthy tid), tid as [id|].
  - unfold emit. now rewrite log_upd.
  - unfold ret. now rewrite app_nil_r.
  - unfold ret. now rewrite app_nil_r.
  - unfold ret. now rewrite app_nil_r.
Qed.

Lemma listener_process_run arg w fs fl evs st :
  listener_process arg (upd w fs fl evs st) =
  let '(st1, ex) := process arg st in
  (match ex with Some e => Throw e | None => Ok tt end,
   upd w fs fl (evs ++ [EvProcess arg]) st1).
Proof.
  unfold listener_process. simpl. destruct (process arg st) as [st1 [e|]];
    now rewrite set_listener_upd, log_upd.
Qed.

Lemma deliver_run ls w fs fl evs st :
  deliver ls (upd w fs fl evs st) =
  let '(calls, st1, r) := consume (map Some ls) st in
  (match r with Some e => Throw e | None => Ok tt end,
   upd w fs fl (evs ++ map EvProcess calls) st1).
Proof.
  revert evs st. induction ls as [|line rest IH]; intros evs st; simpl.
  - unfold ret. now rewrite app_nil_r.
  - unfold bind at 1. rewrite listener_process_run.
    destruct (process (Some line) st) as [st1 [e|]]; [reflexivity|].
    unfold bind at 1, yield at 1, Promise_resolve. rewrite IH.
    destruct (consume (map Some rest) st1) as [[calls st2] r].
    simpl. now rewrite <- app_assoc.
Qed.

Lemma read_run p w fs fl evs st :
  yield (OS_File_read p) (upd w fs fl evs st) =
  match read_outcome fs fl p with
  | inl e => (Throw e, upd w fs (tail fl) (evs ++ [EvPrim (OpRead p) (Some e)]) st)
  | inr text => (Ok text, upd w fs (tail fl) (evs ++ [EvPrim (OpRead p) None]) st)
  end.
Proof.
  unfold yield, OS_File_read, prim, read_outcome. simpl.
  destruct (head fl) as [[[e|e]|]|]; rewrite ?set_faults_upd, ?log_upd; try reflexivity;
    destruct (fs !! p); now rewrite ?set_files_upd, log_upd.
Qed.

Lemma consume_app_sentinel (ls : list (option string)) st :
  consume (ls ++ [None]) st =
  let '(calls, st1, r) := consume ls st in
  match r with
  | Some e => (calls, st1, Some e)
  | None =>
      let '(st2, ex) := process None st1 in (calls ++ [None], st2, ex)
  end.
Proof.
  revert st. induction ls as [|a ls IH]; intros st; simpl.
  - destruct (process None st) as [st1 [e|]]; reflexivity.
  - destruct (process a st) as [st1 [e|]]; [reflexivity|].
    rewrite IH. destruct (consume ls st1) as [[calls st2] [e|]]; [reflexivity|].
    destruct (process None st2) as [st3 ex]. reflexivity.
Qed.

Lemma readFromFile_upd file tid w fs fl evs st :
  readFromFile file tid (upd w fs fl evs st) =
  (Ok tt, upd w fs (tail fl) (evs ++ reader_events fs fl st file tid)
              (reader_listener fs fl st file)).
Proof.
  unfold readFromFile, reader_events, reader_listener.
  unfold bind at 1, try_catch. unfold bind at 1. rewrite if_timeLineID_run.
  unfold bind at 1. rewrite read_run.
  destruct (read_outcome fs fl (path file)) as [e|text].
  - unfold ret, bind. rewrite if_timeLineID_run. unfold callback, emit. rewrite log_upd.
    repeat rewrite <- app_assoc. reflexivity.
  - unfold bind at 1. rewrite if_timeLineID_run.
    unfold bind at 1. rewrite deliver_run, consume_app_sentinel.
    destruct (consume (map Some (lines text)) st) as [[calls st1] [e|]].
    + unfold ret, bind. rewrite if_timeLineID_run. unfold callback, emit. rewrite log_upd.
      repeat rewrite <- app_assoc. reflexivity.
    + unfold bind at 1. rewrite listener_process_run.
      destruct (process None st1) as [st2 [e|]];
        unfold ret, bind; rewrite if_timeLineID_run; unfold callback, emit; rewrite log_upd;
        cbn [fst snd]; rewrite ?map_app; repeat rewrite <- app_assoc; reflexivity.
Qed.

(** [readFromFile] always returns to its caller, with the trace extended
    by [reader_events]. *)
Lemma readFromFile_run file tid w :
  readFromFile file tid w =
  (Ok tt, upd w (files w) (tail (faults w))
              (reader_events (files w) (faults w) (listener w) file tid)
              (reader_listener (files w) (faults w) (listener w) file)).
Proof.
  rewrite <- (upd_id w) at 1. rewrite readFromFile_upd. reflexivity.
Qed.

Lemma read_outcome_ok fs fl p n :
  not_failing fl -> fs !! p = Some n ->
  read_outcome fs fl p = inr (decode (content n)).
Proof.
  unfold read_outcome, not_failing. intros Hfl ->.
  destruct fl as [|[f|] fl]; simpl; [reflexivity | contradiction | reflexivity].
Qed.

(** ** Claims on [readFromFile] *)

Lemma reader_calls (w : World) (file : nsIFile) (tid : option string)
    (n : Node) (st' : L) :
  not_failing (faults w) ->
  files w !! path file = Some n ->
  accepts (listener w) (map Some (lines (decode (content n))) ++ [None]) st' ->
  process_calls (trace (readFromFile file tid w).2) =
    process_calls (trace w) ++ map Some (lines (decode (content n))) ++ [None] /\
  listener (readFromFile file tid w).2 = st'.
Proof.
  intros Hfl Hn Hacc.
  rewrite readFromFile_run. cbn [snd upd trace listener].
  unfold reader_events, reader_listener.
  rewrite (read_outcome_ok _ _ _ _ Hfl Hn), (consume_accepts _ _ _ Hacc).
  cbn [fst snd]. split; [|reflexivity].
  rewrite !process_calls_app, process_calls_map.
  rewrite !process_calls_marker by discriminate.
  cbn [process_calls app]. now rewrite app_nil_r.
Qed.

(** C5: when the read succeeds and the listener returns normally from
    every call, [readFromFile] hands every line of [IO.lines] to
    [listener.process] in the order of the text, then [null] exactly once,
    after the last line (no line is [null]: the calls are [Some] lines
    followed by the one [None]).  On the content x LF LF y LF the calls are
    exactly "x", "y", [null]. *)
Theorem readFromFile_delivers (w : World) (file : nsIFile) (tid : option string)
    (n : Node) (st' : L) :
  not_failing (faults w) ->
  files w !! path file = Some n ->
  accepts (listener w) (map Some (lines (decode (content n))) ++ [None]) st' ->
  let w' := (readFromFile file tid w).2 in
  process_calls (trace w') =
    process_calls (trace w) ++ map Some (lines (decode (content n))) ++ [None] /\
  listener w' = st' /\
  (decode (content n) = String "x" (String LF (String LF (String "y" (String LF "")))) ->
   process_calls (trace w') = process_calls (trace w) ++ [Some "x"; Some "y"; None]).
Proof.
  intros Hfl Hn Hacc w'.
  destruct (reader_calls w file tid n st' Hfl Hn Hacc) as [Hcalls Hst].
  split; [exact Hcalls | split; [exact Hst|]].
  intros Htext. subst w'. rewrite Hcalls, Htext. reflexivity.
Qed.

(** C9: the trace of [readFromFile] is: the async-start marker, the read,
    then -- only when the read succeeded -- the async-end marker and the
    calls of [listener.process], then the async-done marker and last the
    one call of the callback.  When the read fails no call of
    [listener.process] is made and the callback receives the failure; when
    the read succeeds the callback receives [null] if the listener returned
    normally from every call, and the exception of the listener otherwise.
    With a span id supplied (one that passes the test [if (timeLineID)],
    a non-empty string) every marker is there, exactly once. *)
Theorem readFromFile_markers (w : World) (file : nsIFile) (tid : option string) :
  let w' := (readFromFile file tid w).2 in
  let p := path file in
  exists (outcome : option Error) (calls : list (option string)) (result : option Error),
    trace w' =
      trace w ++ marker tid EvAsyncStart ++ [EvPrim (OpRead p) outcome] ++
      match outcome with
      | Some _ => []
      | None => marker tid EvAsyncEnd ++ map EvProcess calls
      end ++ marker tid EvAsyncDone ++ [EvCallback result None] /\
    (forall e, outcome = Some e -> result = Some e) /\
    (outcome = None ->
     exists n, files w !! p = Some n /\
       let args := map Some (lines (decode (content n))) ++ [None] in
       (forall st', accepts (listener w) args st' -> calls = args /\ result = None) /\
       (forall pre arg post st1 st2 ex,
          args = pre ++ arg :: post -> accepts (listener w) pre st1 ->
          process arg st1 = (st2, Some ex) ->
          calls = pre ++ [arg] /\ result = Some ex)) /\
    (forall id hook, tid = Some id -> id <> "" -> marker tid hook = [hook id]).
Proof.
  intros w' p. subst w' p. rewrite readFromFile_run. cbn [snd upd trace].
  unfold reader_events.
  destruct (read_outcome (files w) (faults w) (path file)) as [e|text] eqn:Hread.
  - exists (Some e), [], (Some e). repeat split.
    + intros e' [= <-]. reflexivity.
    + discriminate.
    + intros id hook -> Hid. now apply marker_truthy.
  - destruct (consume (map Some (lines text) ++ [None]) (listener w))
      as [[calls st1] r] eqn:Hcons.
    exists None, calls, r. cbn [fst snd]. split; [|split; [|split]].
    + repeat rewrite <- app_assoc. reflexivity.
    + discriminate.
    + intros _. unfold read_outcome in Hread.
      destruct (files w !! path file) as [n|] eqn:Hn.
      2:{ destruct (head (faults w)) as [[f|]|]; discriminate. }
      exists n. split; [reflexivity|].
      assert (text = decode (content n)) as ->.
      { destruct (head (faults w)) as [[f|]|]; congruence. }
      cbn zeta. split.
      * intros st' Hacc. rewrite (consume_accepts _ _ _ Hacc) in Hcons.
        now inversion Hcons.
      * intros pre arg post sta stb ex Hargs Hacc Hex.
        rewrite Hargs, (consume_throws _ _ _ _ _ _ post Hacc Hex) in Hcons.
        now inversion Hcons.
    + intros id hook -> Hid. now apply marker_truthy.
Qed.

(** C10: when [listener.process] throws while handling a line, the
    exception is caught: the lines after it are not handed over, [null] is
    not handed over, and after the async-done marker (if any) the callback
    is called, once, with the exception. *)
Theorem readFromFile_listener_throws (w : World) (file : nsIFile) (tid : option string)
    (n : Node) (pre post : list string) (line : string) (st1 st2 : L) (ex : Error) :
  not_failing (faults w) ->
  files w !! path file = Some n ->
  lines (decode (content n)) = pre ++ line :: post ->
  accepts (listener w) (map Some pre) st1 ->
  process (Some line) st1 = (st2, Some ex) ->
  let w' := (readFromFile file tid w).2 in
  trace w' =
    trace w ++ marker tid EvAsyncStart ++ [EvPrim (OpRead (path file)) None] ++
    marker tid EvAsyncEnd ++ map EvProcess (map Some (pre ++ [line])) ++
    marker tid EvAsyncDone ++ [EvCallback (Some ex) None] /\
  process_calls (trace w') = process_calls (trace w) ++ map Some (pre ++ [line]) /\
  listener w' = st2.
Proof.
  intros Hfl Hn Hlines Hacc Hex w'.
  assert (Hcons : consume (map Some (lines (decode (content n))) ++ [None]) (listener w)
                  = (map Some (pre ++ [line]), st2, Some ex)).
  { rewrite Hlines, map_app. cbn [map]. rewrite <- app_assoc. cbn [app].
    rewrite (consume_throws _ _ _ _ _ _ (map Some post ++ [None]) Hacc Hex).
    now rewrite map_app. }
  assert (Htrace : trace w' =
    trace w ++ marker tid EvAsyncStart ++ [EvPrim (OpRead (path file)) None] ++
    marker tid EvAsyncEnd ++ map EvProcess (map Some (pre ++ [line])) ++
    marker tid EvAsyncDone ++ [EvCallback (Some ex) None] /\ listener w' = st2).
  { subst w'. rewrite readFromFile_run. cbn [snd upd trace listener].
    unfold reader_events, reader_listener.
    rewrite (read_outcome_ok _ _ _ _ Hfl Hn), Hcons. cbn [fst snd].
    split; [|reflexivity]. repeat rewrite <- app_assoc. reflexivity. }
  destruct Htrace as [Htrace Hst]. split; [exact Htrace | split; [|exact Hst]].
  rewrite Htrace, !process_calls_app, process_calls_map.
  rewrite !process_calls_marker by discriminate. cbn [process_calls app].
  now rewrite app_nil_r.
Qed.

(** ** Claims on [statFile] *)

Lemma statFile_trace (w : World) (file : nsIFile) :
  let p := path file in
  trace (statFile file w).2 =
  trace w ++
  match (OS_File_stat p w).1 with
  | Resolved i =>
      [EvPrim (OpStat p) None;
       EvCallback None (Some {| exists_ := true; isDirectory := isDir i;
                                isFile := negb (isDir i);
                                lastModified := lastModificationDate i |})]
  | Rejected e =>
      [EvPrim (OpStat p) (Some e);
       if becauseNoSuchFile e then EvCallback None (Some missing_stat)
       else EvCallback (Some e) None]
  | Thrown e => [EvPrim (OpStat p) (Some e); EvCallback (Some e) None]
  end.
Proof.
  unfold statFile, OS_File_stat, prim, callback, emit. cbn zeta.
  destruct (head (faults w)) as [[[msg|e]|]|]; cbn [fst snd].
  - cbn. now rewrite <- app_assoc.
  - destruct (becauseNoSuchFile e); cbn; now rewrite <- app_assoc.
  - destruct (files w !! path file) as [n|]; cbn; now rewrite <- app_assoc.
  - destruct (files w !! path file) as [n|]; cbn; now rewrite <- app_assoc.
Qed.

Lemma stat_thrown_flag (w : World) (p : string) (e : Error) :
  (OS_File_stat p w).1 = Thrown e -> becauseNoSuchFile e = false.
Proof.
  unfold OS_File_stat, prim.
  destruct (head (faults w)) as [[[msg|e']|]|]; cbn [fst].
  - intros [= <-]. reflexivity.
  - discriminate.
  - destruct (files w !! p); discriminate.
  - destruct (files w !! p); discriminate.
Qed.

Lemma stat_missing (w : World) (p : string) :
  not_failing (faults w) -> files w !! p = None ->
  OS_File_stat p w =
  (Rejected (ENOENT p),
   upd w (files w) (tail (faults w)) [EvPrim (OpStat p) (Some (ENOENT p))] (listener w)).
Proof.
  unfold OS_File_stat, prim, not_failing. intros Hfl ->.
  destruct (faults w) as [|[f|] fl]; [reflexivity | contradiction | reflexivity].
Qed.

(** C8: when [OS.File.stat] fails with an error flagged
    [becauseNoSuchFile], the callback receives no error and the [Stat]
    with [exists] false and all else false or zero; any other failure of
    the primitive is handed to the callback as the error.  Whatever the
    outcome there is one call of the callback, and a [Stat] it receives
    with [exists] false has the other fields false or zero.  Asking twice
    about a path at which there is nothing gives this same answer twice,
    without error. *)
Theorem statFile_translation (w : World) (file : nsIFile) :
  let p := path file in
  let w' := (statFile file w).2 in
  (forall e, failure (OS_File_stat p w).1 = Some e -> becauseNoSuchFile e = true ->
     trace w' = trace w ++ [EvPrim (OpStat p) (Some e);
                            EvCallback None (Some missing_stat)]) /\
  (forall e, failure (OS_File_stat p w).1 = Some e -> becauseNoSuchFile e = false ->
     trace w' = trace w ++ [EvPrim (OpStat p) (Some e); EvCallback (Some e) None]) /\
  (exists outcome error stat,
     trace w' = trace w ++ [EvPrim (OpStat p) outcome; EvCallback error stat] /\
     forall st, stat = Some st -> exists_ st = false ->
       isDirectory st = false /\ isFile st = false /\ lastModified st = 0) /\
  (files w !! p = None -> not_failing (faults w) -> not_failing (tail (faults w)) ->
     trace (statFile file w').2 =
       trace w ++ [EvPrim (OpStat p) (Some (ENOENT p)); EvCallback None (Some missing_stat);
                   EvPrim (OpStat p) (Some (ENOENT p)); EvCallback None (Some missing_stat)] /\
     files (statFile file w').2 = files w).
Proof.
  intros p w'. subst w'. split; [|split; [|split]].
  - intros e Hfail Hflag. rewrite statFile_trace. fold p.
    destruct (OS_File_stat p w).1 as [i|e'|e'] eqn:Hstat; cbn in Hfail.
    + discriminate.
    + injection Hfail as ->. now rewrite Hflag.
    + injection Hfail as ->. apply stat_thrown_flag in Hstat. congruence.
  - intros e Hfail Hflag. rewrite statFile_trace. fold p.
    destruct (OS_File_stat p w).1 as [i|e'|e'] eqn:Hstat; cbn in Hfail.
    + discriminate.
    + injection Hfail as ->. now rewrite Hflag.
    + now injection Hfail as ->.
  - rewrite statFile_trace. fold p.
    destruct (OS_File_stat p w).1 as [i|e|e].
    + eexists _, _, _. split; [reflexivity|]. intros st [= <-]. discriminate.
    + destruct (becauseNoSuchFile e).
      * eexists _, _, _. split; [reflexivity|]. intros st [= <-]. now cbn.
      * eexists _, _, _. split; [reflexivity|]. discriminate.
    + eexists _, _, _. split; [reflexivity|]. discriminate.
  - intros Hnone Hfl1 Hfl2.
    assert (Hw1 : statFile file w =
                  (Ok tt, upd w (files w) (tail (faults w))
                            [EvPrim (OpStat p) (Some (ENOENT p));
                             EvCallback None (Some missing_stat)] (listener w))).
    { unfold statFile. fold p. rewrite stat_missing by assumption. cbn [ENOENT becauseNoSuchFile].
      unfold callback, emit. now rewrite log_upd. }
    rewrite Hw1. cbn [snd]. unfold statFile. fold p.
    rewrite stat_missing by assumption. cbn [ENOENT becauseNoSuchFile].
    unfold callback, emit. rewrite upd_upd, log_upd. cbn [snd upd trace files app].
    split; reflexivity.
Qed.

(** ** Running the primitives *)

Lemma prim_run {A} (op : PrimOp)
    (act : Host -> gmap string Node -> Error + A * gmap string Node) w fs fl evs st :
  yield (prim op act) (upd w fs fl evs st) =
  match head fl with
  | Some (Some f) =>
      (Throw (fault_error f),
       upd w fs (tail fl) (evs ++ [EvPrim op (Some (fault_error f))]) st)
  | _ =>
      match act (host w) fs with
      | inl e => (Throw e, upd w fs (tail fl) (evs ++ [EvPrim op (Some e)]) st)
      | inr (a, fs') => (Ok a, upd w fs' (tail fl) (evs ++ [EvPrim op None]) st)
      end
  end.
Proof.
  unfold yield, prim. cbn [faults files host upd].
  destruct (head fl) as [[[msg|e]|]|]; rewrite ?set_faults_upd, ?log_upd; try reflexivity;
    destruct (act (host w) fs) as [e|[a fs']]; now rewrite ?set_files_upd, log_upd.
Qed.

(** ** The writer when no primitive fails *)

Lemma writeChunk_ok f lb buf bufLen w fs evs st c :
  fs !! fd_path f = Some (regular (now (host w)) c) ->
  writeChunk f lb buf bufLen (upd w fs [] evs st) =
  (Ok ([], 0),
   upd w (<[fd_path f := regular (now (host w)) (c ++ encode (join lb buf +:+ lb))]> fs) []
         (evs ++ [EvPrim (OpWrite (fd_path f) (encode (join lb buf +:+ lb))) None]) st).
Proof.
  intros Hc. unfold writeChunk, f_write, bind. rewrite prim_run. cbn [head tail].
  unfold ret. do 3 f_equal. apply map_eq. intros q. rewrite lookup_alter.
  destruct (decide (fd_path f = q)) as [<-|Hq].
  - rewrite Hc, lookup_insert_eq. reflexivity.
  - now rewrite lookup_insert_ne.
Qed.

Lemma write_lines_ok f lb data : forall buf bufLen w fs evs st c,
  fs !! fd_path f = Some (regular (now (host w)) c) ->
  write_lines f lb data buf bufLen (upd w fs [] evs st) =
  (Ok (chunked lb data buf bufLen).2,
   upd w (<[fd_path f := regular (now (host w))
                           (c ++ concat (chunked lb data buf bufLen).1)]> fs) []
         (evs ++ map (fun a => EvPrim (OpWrite (fd_path f) a) None)
                     (chunked lb data buf bufLen).1) st).
Proof.
  induction data as [|line rest IH]; intros buf bufLen w fs evs st c Hc.
  - cbn. unfold ret. rewrite !app_nil_r. now rewrite insert_id.
  - cbn [write_lines chunked]. unfold bind, write_line.
    destruct (bufLen + js_length line >=? BUFFER_SIZE).
    + rewrite (writeChunk_ok _ _ _ _ _ _ _ _ _ Hc).
      rewrite (IH _ _ _ _ _ _ _ (lookup_insert_eq _ _ _)).
      destruct (chunked lb rest [] 0) as [arrays state]. cbn [fst snd concat map].
      rewrite insert_insert_eq. now rewrite <- !app_assoc.
    + unfold ret. apply IH, Hc.
Qed.

Lemma writeToFile_ok (w : World) (file : nsIFile) (data : list string) :
  faults w = [] ->
  writeToFile file data w =
  (Ok tt,
   upd w (<[path file := regular (now (host w)) (concat (written (lineBreak (host w)) data))]>
            (delete (path file +:+ ".tmp") (files w))) []
         (writer_events w file data) (listener w)).
Proof.
  intros Hfl.
  replace (writeToFile file data w)
    with (writeToFile file data (upd w (files w) [] [] (listener w)))
    by (now rewrite <- Hfl, upd_id).
  unfold writeToFile, writer_events, written, try_catch, then_, writeToFile_task.
  set (tmp := path file +:+ ".tmp"). set (lb := lineBreak (host w)).
  unfold bind at 1. unfold OS_File_open.
  rewrite prim_run. cbn [head tail].
  set (f := {| fd_path := tmp; has_flush := flush_exposed (host w) |}).
  unfold bind at 1, IO_lineBreak. cbn [host upd]. fold lb.
  unfold bind at 1.
  rewrite (write_lines_ok f lb data [] 0 w _ _ _ [] (lookup_insert_eq _ _ _)).
  destruct (chunked lb data [] 0) as [arrays [buf bufLen]]. cbn [fst snd fd_path f].
  rewrite insert_insert_eq. cbn [app].
  unfold bind at 1.
  assert (Hfinal :
    (if bufLen =? 0 then ret (buf, bufLen) else writeChunk f lb buf bufLen)
      (upd w (<[tmp := regular (now (host w)) (concat arrays)]> (files w)) []
             ([EvPrim (OpOpen tmp) None] ++
              map (fun a => EvPrim (OpWrite tmp a) None) arrays) (listener w)) =
    (Ok (if bufLen =? 0 then (buf, bufLen) else ([], 0)),
     upd w (<[tmp := regular (now (host w))
                (concat (arrays ++ (if bufLen =? 0 then []
                                    else [encode (join lb buf +:+ lb)])))]> (files w)) []
           ([EvPrim (OpOpen tmp) None] ++
            map (fun a => EvPrim (OpWrite tmp a) None)
                (arrays ++ (if bufLen =? 0 then []
                            else [encode (join lb buf +:+ lb)]))) (listener w))).
  { destruct (bufLen =? 0).
    - unfold ret. now rewrite !app_nil_r.
    - rewrite (writeChunk_ok f _ _ _ _ _ _ _ _ (lookup_insert_eq _ _ _)).
      cbn [fd_path f].
      rewrite insert_insert_eq, concat_app, map_app. cbn [concat map].
      now rewrite app_nil_r, <- !app_assoc. }
  cbn [app] in Hfinal. rewrite Hfinal. clear Hfinal.
  set (arrays' := arrays ++ _).
  destruct (bufLen =? 0) eqn:Hlen.
  all: unfold bind at 1; cbn [has_flush f];
    destruct (flush_exposed (host w));
    [ unfold f_flush; rewrite prim_run; cbn [head tail] | unfold ret ];
    unfold bind at 1, f_close; rewrite prim_run; cbn [head tail];
    unfold OS_File_move; rewrite prim_run; cbn [head tail];
    rewrite lookup_insert_eq, delete_insert_eq;
    unfold callback, emit; rewrite log_upd;
    cbn [app fd_path]; rewrite <- ?app_assoc; cbn [app]; reflexivity.
Qed.

(** ** Claims on the chunking of [writeToFile] *)

Lemma js_length_nonneg (s : string) : 0 <= js_length s.
Proof. unfold js_length. lia. Qed.

Lemma write_line_trace f lb line buf bufLen (w : World) :
  BUFFER_SIZE <= bufLen + js_length line ->
  let array := encode (join lb (buf ++ [line]) +:+ lb) in
  let r := write_line f lb line buf bufLen w in
  exists outcome,
    trace r.2 = trace w ++ [EvPrim (OpWrite (fd_path f) array) outcome] /\
    r.1 = match outcome with None => Ok ([], 0) | Some e => Throw e end /\
    (not_failing (faults w) -> outcome = None).
Proof.
  intros Hlen array r. subst r. unfold write_line.
  destruct (Z.geb_spec (bufLen + js_length line) BUFFER_SIZE) as [_|]; [|lia].
  unfold writeChunk. fold array. unfold bind.
  replace (yield (f_write f array) w)
    with (yield (f_write f array) (upd w (files w) (faults w) [] (listener w)))
    by now rewrite upd_id.
  unfold f_write. rewrite prim_run. cbn [app]. unfold ret.
  destruct (faults w) as [|[flt|] fl]; cbn [head tail fst snd upd trace not_failing].
  - exists None. repeat split.
  - exists (Some (fault_error flt)). repeat split. contradiction.
  - exists None. repeat split.
Qed.

(** C6: a line appended to the buffer adds its length to the counter;
    when the counter then is 32768 or more, [writeChunk] is issued (one
    write of the joined buffer), and a flush that succeeds leaves the buffer
    empty and the counter 0; below the threshold nothing is written.  So a
    single line of 40,000 characters is flushed in the loop, which leaves
    the counter at 0, and [writeToFile] issues exactly this one write. *)
Theorem chunking_invariant (w : World) (f : OSFile) (lb line : string)
    (buf : list string) (bufLen : Z) (file : nsIFile) :
  let len := bufLen + js_length line in
  let array := encode (join lb (buf ++ [line]) +:+ lb) in
  let r := write_line f lb line buf bufLen w in
  (len < BUFFER_SIZE -> r = (Ok (buf ++ [line], len), w)) /\
  (BUFFER_SIZE <= len ->
   exists outcome,
     trace r.2 = trace w ++ [EvPrim (OpWrite (fd_path f) array) outcome] /\
     r.1 = match outcome with None => Ok ([], 0) | Some e => Throw e end /\
     (not_failing (faults w) -> outcome = None)) /\
  (js_length line = 40000 -> faults w = [] ->
   let tmp := path file +:+ ".tmp" in
   let single := EvPrim (OpWrite tmp (encode (line +:+ lineBreak (host w)))) None in
   (forall w1 f1, faults w1 = [] -> fd_path f1 = tmp ->
      let r1 := write_lines f1 (lineBreak (host w)) [line] [] 0 w1 in
      r1.1 = Ok ([], 0) /\ trace r1.2 = trace w1 ++ [single]) /\
   trace (writeToFile file [line] w).2 =
     trace w ++ [EvPrim (OpOpen tmp) None; single] ++
     (if flush_exposed (host w) then [EvPrim (OpFlush tmp) None] else []) ++
     [EvPrim (OpClose tmp) None; EvPrim (OpMove tmp (path file)) None;
      EvCallback None None]).
Proof.
  intros len array r. split; [|split].
  - intros Hlen. subst r. unfold write_line. fold len.
    destruct (Z.geb_spec len BUFFER_SIZE); [lia | reflexivity].
  - intros Hlen. apply write_line_trace. exact Hlen.
  - intros H40 Hfl tmp single. split.
    + intros w1 f1 Hfl1 Hf1 r1. subst r1. cbn [write_lines].
      unfold bind. cbn [app].
      pose proof (write_line_trace f1 (lineBreak (host w)) line [] 0 w1) as Hw.
      rewrite Hf1 in Hw.
      cbn zeta in Hw. destruct Hw as (outcome & Htr & Hres & Hok).
      { rewrite H40. unfold BUFFER_SIZE. lia. }
      rewrite (Hok ltac:(now rewrite Hfl1)) in *. cbn [app join fd_path] in *.
      destruct (write_line _ _ _ _ _ w1) as [res w2]. cbn [fst snd] in *.
      subst res. unfold ret. cbn [fst snd]. split; [reflexivity | exact Htr].
    + rewrite (writeToFile_ok w file [line] Hfl). cbn [snd upd trace].
      unfold writer_events, written. cbn [chunked]. rewrite Z.add_0_l, H40.
      reflexivity.
Qed.

(** ** What is written *)

Lemma total_length_nonneg data : 0 <= total_length data.
Proof.
  induction data as [|l data IH]; cbn; [lia|]. pose proof (js_length_nonneg l). lia.
Qed.

(** Below the threshold the loop writes nothing and keeps every line. *)
Lemma chunked_small lb data : forall buf bufLen,
  0 <= bufLen -> bufLen + total_length data < BUFFER_SIZE ->
  chunked lb data buf bufLen = ([], (buf ++ data, bufLen + total_length data)).
Proof.
  induction data as [|line rest IH]; intros buf bufLen H0 Hlt; cbn [chunked total_length] in *.
  - now rewrite app_nil_r, Z.add_0_r.
  - pose proof (js_length_nonneg line). pose proof (total_length_nonneg rest).
    destruct (Z.geb_spec (bufLen + js_length line) BUFFER_SIZE); [lia|].
    rewrite IH by lia. now rewrite <- app_assoc, Z.add_assoc.
Qed.

Lemma written_small lb data :
  total_length data < BUFFER_SIZE ->
  written lb data =
  if total_length data =? 0 then [] else [encode (join lb data +:+ lb)].
Proof.
  intros Hlt. unfold written. rewrite chunked_small by (cbn; lia). reflexivity.
Qed.

Lemma join_text_of lb buf : buf <> [] -> join lb buf +:+ lb = text_of lb buf.
Proof.
  induction buf as [|x buf IH]; [congruence|]. intros _.
  destruct buf as [|y buf].
  - cbn. now rewrite string_app_nil_r.
  - change (join lb (x :: y :: buf)) with (x +:+ lb +:+ join lb (y :: buf)).
    change (text_of lb (x :: y :: buf)) with (x +:+ lb +:+ text_of lb (y :: buf)).
    rewrite <- IH by discriminate. now rewrite !string_app_assoc.
Qed.

Lemma text_of_app lb a b : text_of lb (a ++ b) = text_of lb a +:+ text_of lb b.
Proof.
  induction a as [|x a IH]; cbn; [reflexivity|]. now rewrite IH, !string_app_assoc.
Qed.

Lemma encode_empty : faithful_codec -> encode "" = [].
Proof.
  intros [_ Happ]. specialize (Happ "" ""). cbn in Happ.
  apply (f_equal (@length byte)) in Happ. rewrite length_app in Happ.
  destruct (encode ""); [reflexivity | cbn in Happ; lia].
Qed.

Lemma total_length_pos buf :
  Forall (fun l => l <> "") buf -> buf <> [] -> 0 < total_length buf.
Proof.
  intros Hne Hbuf. destruct buf as [|x buf]; [congruence|].
  inversion Hne as [|? ? Hx _]; subst. cbn [total_length].
  pose proof (total_length_nonneg buf). unfold js_length.
  destruct x; [congruence | cbn; lia].
Qed.

(** When no line is empty the arrays written are, one after the other, the
    encoding of the lines with a line break after each. *)
Lemma chunked_text lb : faithful_codec -> forall data buf,
  Forall (fun l => l <> "") (buf ++ data) ->
  let r := chunked lb data buf (total_length buf) in
  concat (r.1 ++ (if r.2.2 =? 0 then [] else [encode (join lb r.2.1 +:+ lb)])) =
  encode (text_of lb (buf ++ data)).
Proof.
  intros Hcodec. pose proof Hcodec as [_ Happ].
  induction data as [|line rest IH]; intros buf Hne; cbn [chunked fst snd].
  - rewrite app_nil_r in *. cbn [app]. destruct buf as [|x buf].
    + cbn. symmetry. now apply encode_empty.
    + pose proof (total_length_pos (x :: buf) Hne ltac:(discriminate)).
      destruct (Z.eqb_spec (total_length (x :: buf)) 0); [lia|].
      cbn [concat]. rewrite app_nil_r. now rewrite join_text_of.
  - assert (Htot : total_length (buf ++ [line]) = total_length buf + js_length line).
    { clear. induction buf as [|x buf IHb]; cbn; [lia | rewrite IHb; lia]. }
    replace (buf ++ line :: rest) with ((buf ++ [line]) ++ rest) in *
      by now rewrite <- app_assoc.
    destruct (total_length buf + js_length line >=? BUFFER_SIZE).
    + specialize (IH [] ltac:(now apply Forall_app in Hne as [_ ?])).
      cbn [total_length app] in IH.
      destruct (chunked lb rest [] 0) as [arrays [buf' len']]. cbn [fst snd] in *.
      cbn [app concat]. rewrite join_text_of by now destruct buf.
      now rewrite IH, (text_of_app lb (buf ++ [line]) rest), Happ.
    + rewrite <- Htot. now apply IH.
Qed.

Lemma written_text lb data :
  faithful_codec -> Forall (fun l => l <> "") data ->
  concat (written lb data) = encode (text_of lb data).
Proof.
  intros Hcodec Hne. pose proof (chunked_text lb Hcodec data [] Hne) as H.
  cbn [total_length app] in H. unfold written.
  destruct (chunked lb data [] 0) as [arrays [buf len]]. exact H.
Qed.

(** Read back, a text written with line breaks gives its lines. *)
Lemma runs_text_of lb data : lb <> "" -> only_breaks lb ->
  Forall (fun l => l <> "" /\ no_break l) data ->
  forall sep, only_breaks sep -> runs (sep +:+ text_of lb data) data.
Proof.
  intros Hlb Hbr. induction 1 as [|line rest [Hne Hnb] _ IH]; intros sep Hsep.
  - cbn. rewrite string_app_nil_r. now apply runs_done.
  - cbn [text_of]. apply runs_token; auto.
    destruct lb as [|c lb]; [congruence|]. cbn.
    unfold only_breaks in Hbr. cbn in Hbr. now apply andb_true_iff in Hbr as [? _].
Qed.

Lemma lines_text_of lb data : lb <> "" -> only_breaks lb ->
  Forall (fun l => l <> "" /\ no_break l) data ->
  lines (text_of lb data) = data.
Proof.
  intros Hlb Hbr Hdata. apply runs_lines.
  apply (runs_text_of lb data Hlb Hbr Hdata ""). reflexivity.
Qed.

Lemma lineBreak_breaks (h : Host) : lineBreak h <> "" /\ only_breaks (lineBreak h).
Proof.
  unfold lineBreak. destruct (String.eqb (appinfo_OS h) "WINNT"); split;
    (discriminate || reflexivity).
Qed.

Lemma accepts_total :
  (forall arg st, (process arg st).2 = None) ->
  forall args st, exists st', accepts st args st'.
Proof.
  intros Hquiet. induction args as [|a args IH]; intros st.
  - exists st. constructor.
  - destruct (process a st) as [st1 ex] eqn:Hp.
    pose proof (Hquiet a st) as Hq. rewrite Hp in Hq. cbn in Hq. subst ex.
    destruct (IH st1) as [st2 H2]. exists st2. econstructor; eauto.
Qed.

Lemma process_calls_prims {A} (f : A -> PrimOp) (o : option Error) (l : list A) :
  process_calls (map (fun a => EvPrim (f a) o) l) = [].
Proof. induction l as [|a l IH]; cbn; auto. Qed.

Lemma process_calls_writer (w : World) file data :
  process_calls (writer_events w file data) = [].
Proof.
  unfold writer_events. rewrite !process_calls_app, process_calls_prims.
  destruct (flush_exposed (host w)); reflexivity.
Qed.

(** ** Writing, then reading *)

(** C1, as the code has it: for every sequence of lines that are
    non-empty and hold no carriage return and no line feed, [writeToFile]
    followed by [readFromFile] on the file written hands the listener the
    same lines in the same order and then [null] -- whatever the number of
    flushes, for either line break; no primitive is made to fail, the codec
    is faithful and the listener returns normally. *)
Theorem write_read_round_trip (w : World) (file : nsIFile) (data : list string)
    (tid : option string) :
  faithful_codec ->
  faults w = [] ->
  (forall arg st, (process arg st).2 = None) ->
  Forall (fun line => line <> "" /\ no_break line) data ->
  let w1 := (writeToFile file data w).2 in
  let w2 := (readFromFile file tid w1).2 in
  (exists n, files w1 !! path file = Some n /\
             decode (content n) = text_of (lineBreak (host w)) data) /\
  process_calls (trace w2) = process_calls (trace w) ++ map Some data ++ [None].
Proof.
  intros Hcodec Hfl Hquiet Hdata w1 w2.
  assert (Hne : Forall (fun l => l <> "") data).
  { eapply Forall_impl; [exact Hdata|]. now intros l [? _]. }
  pose proof (lineBreak_breaks (host w)) as [Hlb Hbr].
  assert (Hw1 : files w1 !! path file =
                Some (regular (now (host w)) (encode (text_of (lineBreak (host w)) data)))).
  { subst w1. rewrite (writeToFile_ok w file data Hfl). cbn [snd upd files].
    now rewrite lookup_insert_eq, written_text. }
  assert (Htext : decode (encode (text_of (lineBreak (host w)) data)) = text_of (lineBreak (host w)) data)
    by apply Hcodec.
  split.
  { eexists. split; [exact Hw1 | exact Htext]. }
  destruct (accepts_total Hquiet (map Some data ++ [None]) (listener w1)) as [st' Hacc].
  subst w2.
  destruct (reader_calls w1 file tid
              (regular (now (host w)) (encode (text_of (lineBreak (host w)) data))) st') as [Hcalls _].
  - subst w1. rewrite (writeToFile_ok w file data Hfl). exact I.
  - exact Hw1.
  - cbn [content regular]. rewrite Htext, lines_text_of by assumption. exact Hacc.
  - rewrite Hcalls. cbn [content regular]. rewrite Htext, lines_text_of by assumption.
    subst w1. rewrite (writeToFile_ok w file data Hfl). cbn [snd upd trace].
    now rewrite process_calls_app, process_calls_writer, app_nil_r.
Qed.

(** ** Failures of the writer *)

Lemma same_except_refl tmp fs : same_except tmp fs fs.
Proof. now intros q _. Qed.

Lemma same_except_trans tmp fs1 fs2 fs3 :
  same_except tmp fs1 fs2 -> same_except tmp fs2 fs3 -> same_except tmp fs1 fs3.
Proof. intros H12 H23 q Hq. now rewrite H23, H12. Qed.

Lemma steps_ret {A} tmp strict (a : A) w : steps tmp strict (ret a) w.
Proof.
  exists []. cbn. rewrite app_nil_r.
  split; [reflexivity | split; [constructor | intros _; apply same_except_refl]].
Qed.

Lemma steps_bind {A B} tmp strict (m : M A) (k : A -> M B) w :
  steps tmp true m w ->
  (forall a w', m w = (Ok a, w') -> steps tmp strict (k a) w') ->
  steps tmp strict (bind m k) w.
Proof.
  intros (evs & Htr & Hclean & Hfs) Hk. unfold steps, bind.
  destruct (m w) as [[a|e] w'] eqn:Hm; cbn [fst snd err] in *.
  - destruct (Hk a w' eq_refl) as (evs2 & Htr2 & Hclean2 & Hfs2).
    exists (evs ++ evs2). rewrite Htr2, Htr, app_assoc. split; [reflexivity|]. split.
    + destruct (err (k a w').1) as [e|]; cbn [clean] in *.
      * destruct Hclean2 as (evs0 & op & -> & Hok).
        exists (evs ++ evs0), op. rewrite app_assoc. split; [reflexivity|].
        now apply Forall_app.
      * now apply Forall_app.
    + intros Hcase. eapply same_except_trans; [apply Hfs; now left | now apply Hfs2].
  - exists evs. split; [exact Htr | split; [exact Hclean|]].
    intros _. apply Hfs. now left.
Qed.

Lemma steps_prim {A} tmp strict (op : PrimOp)
    (act : Host -> gmap string Node -> Error + A * gmap string Node) w :
  (strict = true ->
   forall h fs a fs', act h fs = inr (a, fs') -> same_except tmp fs fs') ->
  steps tmp strict (yield (prim op act)) w.
Proof.
  intros Hact. unfold steps, yield, prim.
  destruct (head (faults w)) as [[[msg|e]|]|]; cbn [fst snd err].
  1,2: eexists [_]; cbn; split; [reflexivity | split];
       [ eexists [], _; split; [reflexivity | constructor]
       | intros _; apply same_except_refl ].
  all: destruct (act (host w) (files w)) as [e|[a fs']] eqn:Hrun; cbn [fst snd err].
  1,3: eexists [_]; cbn; split; [reflexivity | split];
       [ eexists [], _; split; [reflexivity | constructor]
       | intros _; apply same_except_refl ].
  all: eexists [_]; cbn; split; [reflexivity | split]; [repeat constructor|];
       intros [Hs|Hs]; [ eapply Hact; eauto | congruence ].
Qed.

Lemma steps_writeChunk f lb buf bufLen w :
  steps (fd_path f) true (writeChunk f lb buf bufLen) w.
Proof.
  unfold writeChunk. apply steps_bind; [|intros; apply steps_ret].
  apply steps_prim. intros _ h fs a fs' [= _ <-] q Hq.
  rewrite lookup_alter. now destruct (decide (fd_path f = q)); [congruence|].
Qed.

Lemma steps_write_lines f lb data : forall buf bufLen w,
  steps (fd_path f) true (write_lines f lb data buf bufLen) w.
Proof.
  induction data as [|line rest IH]; intros buf bufLen w; cbn [write_lines].
  - apply steps_ret.
  - apply steps_bind.
    + unfold write_line. destruct (_ >=? _); [apply steps_writeChunk | apply steps_ret].
    + intros [buf' len'] w' _. apply IH.
Qed.

Lemma steps_writeToFile_task file data w :
  steps (path file +:+ ".tmp") false (writeToFile_task file data) w.
Proof.
  unfold writeToFile_task. apply steps_bind.
  { apply steps_prim. intros _ h fs a fs' [= _ <-] q Hq. now rewrite lookup_insert_ne. }
  intros f w1 Hopen.
  assert (Hf : fd_path f = path file +:+ ".tmp").
  { unfold yield, OS_File_open, prim in Hopen.
    destruct (head (faults w)) as [[[msg|e]|]|]; cbn in Hopen; now inversion Hopen. }
  rewrite <- Hf. apply steps_bind.
  { exists []. cbn. rewrite app_nil_r.
    split; [reflexivity | split; [constructor | intros _; apply same_except_refl]]. }
  intros lb w2 _. apply steps_bind; [apply steps_write_lines|].
  intros [buf bufLen] w3 _. apply steps_bind.
  { destruct (bufLen =? 0); [apply steps_ret | apply steps_writeChunk]. }
  intros _ w4 _. apply steps_bind.
  { destruct (has_flush f); [|apply steps_ret].
    apply steps_prim. intros _ h fs a fs' [= _ <-]. apply same_except_refl. }
  intros _ w5 _. apply steps_bind.
  { apply steps_prim. intros _ h fs a fs' [= _ <-]. apply same_except_refl. }
  intros _ w6 _. apply steps_prim. discriminate.
Qed.

Lemma tmp_path_fresh (p : string) : p <> p +:+ ".tmp".
Proof.
  intros H. apply (f_equal String.length) in H.
  rewrite string_length_app in H. cbn in H. lia.
Qed.

Lemma clean_no_callback evs failed :
  clean evs failed -> Forall (fun ev => ~ is_callback ev) evs.
Proof.
  assert (Hok : forall l, Forall prim_succeeded l -> Forall (fun ev => ~ is_callback ev) l).
  { intros l Hl. eapply Forall_impl; [exact Hl|]. now intros [] ?. }
  destruct failed as [e|]; cbn; [|apply Hok].
  intros (evs0 & op & -> & H0). apply Forall_app. split; [now apply Hok|].
  repeat constructor. now cbn.
Qed.

(** C2: [writeToFile] calls primitives until one fails and calls none
    after it; the callback is called exactly once, as the last event, with
    the failure of that primitive, or with [null] when every primitive
    succeeded.  In the failure case every path other than the temporary file
    [path + ".tmp"] -- the target among them -- holds what it held before
    (or nothing, as before). *)
Theorem writeToFile_atomic (w : World) (file : nsIFile) (data : list string) :
  let w' := (writeToFile file data w).2 in
  let tmp := path file +:+ ".tmp" in
  exists (evs : list Event) (result : option Error),
    trace w' = trace w ++ evs ++ [EvCallback result None] /\
    Forall (fun ev => ~ is_callback ev) evs /\
    match result with
    | None => Forall prim_succeeded evs
    | Some e =>
        (exists evs0 op, evs = evs0 ++ [EvPrim op (Some e)] /\
                         Forall prim_succeeded evs0) /\
        (forall q, q <> tmp -> files w' !! q = files w !! q) /\
        files w' !! path file = files w !! path file
    end.
Proof.
  intros w' tmp. subst w'.
  destruct (steps_writeToFile_task file data w) as (evs & Htr & Hclean & Hfs).
  fold tmp in Hfs. unfold writeToFile, try_catch, then_.
  destruct (writeToFile_task file data w) as [[[]|e] w1]; cbn [fst snd err] in *.
  - exists evs, None. cbn. rewrite Htr, <- app_assoc.
    split; [reflexivity|]. split; [|exact Hclean].
    now apply (clean_no_callback evs None).
  - exists evs, (Some e). cbn. rewrite Htr, <- app_assoc.
    split; [reflexivity|]. split; [now apply (clean_no_callback evs (Some e))|].
    split; [exact Hclean|].
    assert (Hsame : same_except tmp (files w) (files w1)) by (apply Hfs; right; discriminate).
    split; [exact Hsame|]. apply Hsame, tmp_path_fresh.
Qed.

(** ** Inputs below the threshold *)

(** When the lines total fewer than 32768 characters the loop never
    flushes.  If they total at least one character, the final flush writes
    them joined by the line break and followed by one, in one write, and
    this is what the target holds; if they total none -- no line, or empty
    lines only -- nothing is written and the target is empty. *)
Lemma writeToFile_below_threshold (w : World) (file : nsIFile) (data : list string) :
  faults w = [] ->
  total_length data < BUFFER_SIZE ->
  let w' := (writeToFile file data w).2 in
  let tmp := path file +:+ ".tmp" in
  let array := encode (join (lineBreak (host w)) data +:+ lineBreak (host w)) in
  let closing :=
    (if flush_exposed (host w) then [EvPrim (OpFlush tmp) None] else []) ++
    [EvPrim (OpClose tmp) None; EvPrim (OpMove tmp (path file)) None;
     EvCallback None None] in
  (0 < total_length data ->
   trace w' = trace w ++ [EvPrim (OpOpen tmp) None; EvPrim (OpWrite tmp array) None] ++ closing /\
   files w' !! path file = Some (regular (now (host w)) array)) /\
  (total_length data = 0 ->
   trace w' = trace w ++ [EvPrim (OpOpen tmp) None] ++ closing /\
   files w' !! path file = Some (regular (now (host w)) [])).
Proof.
  intros Hfl Hlt w' tmp array closing. subst w'.
  rewrite (writeToFile_ok w file data Hfl). cbn [snd upd trace files].
  unfold writer_events. rewrite written_small by exact Hlt. fold tmp array.
  rewrite lookup_insert_eq. split; intros Hlen.
  - destruct (Z.eqb_spec (total_length data) 0) as [H0|_]; [exfalso; lia|].
    cbn [map concat app]. rewrite app_nil_r. split; reflexivity.
  - rewrite Hlen. cbn [Z.eqb map concat app]. split; reflexivity.
Qed.

(** * Further properties *)

(** ** The scanner on texts put together *)

Lemma only_breaks_app (a b : string) :
  only_breaks a -> only_breaks b -> only_breaks (a +:+ b).
Proof.
  unfold only_breaks. intros Ha Hb. now rewrite string_forall_app, Ha, Hb.
Qed.

Lemma runs_prepend (s b : string) (tb : list string) :
  only_breaks s -> runs b tb -> runs (s +:+ b) tb.
Proof.
  intros Hs Hb. destruct Hb as [sep Hsep | sep t r ts Hsep Hne Ht Hr Hrest].
  - apply runs_done. now apply only_breaks_app.
  - rewrite <- string_app_assoc. apply runs_token; auto. now apply only_breaks_app.
Qed.

Lemma at_break_app (r s : string) :
  at_break r -> s <> "" -> only_breaks s -> forall b, at_break (r +:+ s +:+ b).
Proof.
  intros Hr Hs Hbr b. destruct r as [|c r]; [|exact Hr].
  destruct s as [|c s]; [congruence|]. cbn.
  unfold only_breaks in Hbr. cbn in Hbr. now apply andb_true_iff in Hbr as [? _].
Qed.

Lemma runs_app (a : string) (ta : list string) :
  runs a ta ->
  forall sep b tb, sep <> "" -> only_breaks sep -> runs b tb ->
  runs (a +:+ sep +:+ b) (ta ++ tb).
Proof.
  induction 1 as [s Hs | s t r ts Hs Hne Ht Hr _ IH]; intros sep b tb Hsep Hbr Hb.
  - cbn [app]. apply runs_prepend; [exact Hs|]. now apply runs_prepend.
  - cbn [app]. rewrite !string_app_assoc. apply runs_token; auto.
    now apply at_break_app.
Qed.

(** Two texts joined by a line break, or by several, scan to the lines of
    the first followed by the lines of the second: no token runs across the
    joint, none is lost and none is made. *)
Theorem lines_app_breaks (a sep b : string) :
  sep <> "" -> only_breaks sep ->
  lines (a +:+ sep +:+ b) = lines a ++ lines b.
Proof.
  intros Hsep Hbr. apply runs_lines.
  apply runs_app; auto using lines_runs.
Qed.

Lemma lines_wellformed (text : string) :
  Forall (fun l => l <> "" /\ no_break l) (lines text).
Proof.
  pose proof (lines_runs text) as H.
  induction H as [|sep t r ts _ Hne Ht _ _ IH]; constructor; auto.
Qed.

(** ** Saving what was loaded *)

Lemma round_trip_calls (w : World) (file : nsIFile) (data : list string)
    (tid : option string) :
  faithful_codec ->
  faults w = [] ->
  (forall arg st, (process arg st).2 = None) ->
  Forall (fun line => line <> "" /\ no_break line) data ->
  process_calls (trace (readFromFile file tid (writeToFile file data w).2).2) =
  process_calls (trace w) ++ map Some data ++ [None].
Proof.
  intros Hcodec Hfl Hquiet Hdata.
  assert (Hne : Forall (fun l => l <> "") data).
  { eapply Forall_impl; [exact Hdata|]. now intros l [? _]. }
  pose proof (lineBreak_breaks (host w)) as [Hlb Hbr].
  set (w1 := (writeToFile file data w).2).
  set (n := regular (now (host w)) (encode (text_of (lineBreak (host w)) data))).
  assert (Hw1 : files w1 !! path file = Some n).
  { subst w1 n. rewrite (writeToFile_ok w file data Hfl). cbn [snd upd files].
    now rewrite lookup_insert_eq, written_text. }
  assert (Htext : lines (decode (content n)) = data).
  { subst n. cbn [content regular]. destruct Hcodec as [Hdec _].
    now rewrite Hdec, lines_text_of. }
  destruct (accepts_total Hquiet (map Some data ++ [None]) (listener w1)) as [st' Hacc].
  destruct (reader_calls w1 file tid n st') as [Hcalls _].
  - subst w1. rewrite (writeToFile_ok w file data Hfl). exact I.
  - exact Hw1.
  - now rewrite Htext.
  - rewrite Hcalls, Htext. subst w1.
    rewrite (writeToFile_ok w file data Hfl). cbn [snd upd trace].
    now rewrite process_calls_app, process_calls_writer, app_nil_r.
Qed.

(** The lines scanned from any text whatever -- blank lines, mixed line
    breaks, no final break -- are lines that survive the round trip: written
    with [writeToFile] and read with [readFromFile] they are delivered again,
    the same and in the same order. *)
Theorem resave_delivers_same_lines (w : World) (file : nsIFile) (text : string)
    (tid : option string) :
  faithful_codec ->
  faults w = [] ->
  (forall arg st, (process arg st).2 = None) ->
  process_calls (trace (readFromFile file tid (writeToFile file (lines text) w).2).2) =
  process_calls (trace w) ++ map Some (lines text) ++ [None].
Proof.
  intros Hcodec Hfl Hquiet.
  apply round_trip_calls; auto using lines_wellformed.
Qed.

(** ** The buffer of the writer *)




(** ** What a write can touch *)

Lemma untouched_refl P (w : World) : untouched P w w.
Proof. repeat split. Qed.

Lemma untouched_trans P (w1 w2 w3 : World) :
  untouched P w1 w2 -> untouched P w2 w3 -> untouched P w1 w3.
Proof.
  intros (Hf1 & Hh1 & Hl1) (Hf2 & Hh2 & Hl2). split; [|split]; [|congruence..].
  intros q Hq. now rewrite Hf2, Hf1.
Qed.

Lemma confined_ret {A} P (a : A) : confined P (ret a).
Proof. intros w. apply untouched_refl. Qed.

Lemma confined_bind {A B} P (m : M A) (k : A -> M B) :
  confined P m -> (forall a, confined P (k a)) -> confined P (bind m k).
Proof.
  intros Hm Hk w. unfold bind. specialize (Hm w).
  destruct (m w) as [[a|e] w1]; cbn [snd] in *; [|exact Hm].
  eapply untouched_trans; [exact Hm | apply Hk].
Qed.

Lemma confined_emit P ev : confined P (emit ev).
Proof. intros w. repeat split. Qed.

Lemma confined_prim {A} P (op : PrimOp)
    (act : Host -> gmap string Node -> Error + A * gmap string Node) :
  (forall h fs a fs', act h fs = inr (a, fs') ->
   forall q, ~ P q -> fs' !! q = fs !! q) ->
  confined P (yield (prim op act)).
Proof.
  intros Hact w. unfold yield, prim.
  destruct (head (faults w)) as [[[msg|e]|]|]; cbn [snd]; try (repeat split; fail).
  all: destruct (act (host w) (files w)) as [e|[a fs']] eqn:Hrun; cbn [snd];
    [repeat split | split; [|split; reflexivity]]; cbn; eauto.
Qed.

Lemma confined_writeChunk P f lb buf bufLen :
  P (fd_path f) -> confined P (writeChunk f lb buf bufLen).
Proof.
  intros Hf. unfold writeChunk. apply confined_bind; [|intros; apply confined_ret].
  apply confined_prim. intros h fs a fs' [= _ <-] q Hq.
  rewrite lookup_alter. destruct (decide (fd_path f = q)); [congruence | reflexivity].
Qed.

Lemma confined_write_lines P f lb data :
  P (fd_path f) -> forall buf bufLen, confined P (write_lines f lb data buf bufLen).
Proof.
  intros Hf. induction data as [|line rest IH]; intros buf bufLen; cbn [write_lines].
  - apply confined_ret.
  - apply confined_bind.
    + unfold write_line. destruct (_ >=? _);
        [now apply confined_writeChunk | apply confined_ret].
    + intros [buf' len']. apply IH.
Qed.

Lemma open_handle p (w : World) f w' :
  yield (OS_File_open p) w = (Ok f, w') -> fd_path f = p.
Proof.
  unfold yield, OS_File_open, prim.
  destruct (head (faults w)) as [[[msg|e]|]|]; cbn; now intros [= <- _].
Qed.

Lemma confined_writeToFile_task file data :
  confined (fun q => q = path file \/ q = path file +:+ ".tmp")
           (writeToFile_task file data).
Proof.
  set (P := fun q => q = path file \/ q = path file +:+ ".tmp").
  intros w. unfold writeToFile_task, bind at 1.
  pose proof (confined_prim P (OpOpen (path file +:+ ".tmp"))
                (fun h fs =>
                   inr ({| fd_path := path file +:+ ".tmp";
                           has_flush := flush_exposed h |},
                        <[path file +:+ ".tmp" :=
                            {| info := {| isDir := false; lastModificationDate := now h |};
                               content := [] |}]> fs))) as Hopen.
  specialize (Hopen ltac:(intros h fs a fs' [= _ <-] q Hq;
                          rewrite lookup_insert_ne; [reflexivity | intros <-; apply Hq; now right]) w).
  fold (OS_File_open (path file +:+ ".tmp")) in Hopen.
  destruct (yield (OS_File_open (path file +:+ ".tmp")) w) as [[f|e] w1] eqn:Hrun;
    cbn [snd] in *; [|exact Hopen].
  apply open_handle in Hrun.
  eapply untouched_trans; [exact Hopen|].
  assert (Hf : P (fd_path f)) by (rewrite Hrun; now right).
  apply confined_bind; [intros w2; apply untouched_refl|]. intros lb.
  apply confined_bind; [now apply confined_write_lines|]. intros [buf bufLen].
  apply confined_bind.
  { destruct (bufLen =? 0); [apply confined_ret | now apply confined_writeChunk]. }
  intros _. apply confined_bind.
  { destruct (has_flush f); [|apply confined_ret].
    apply confined_prim. now intros h fs a fs' [= _ <-]. }
  intros _. apply confined_bind.
  { apply confined_prim. now intros h fs a fs' [= _ <-]. }
  intros _. apply confined_prim. intros h fs a fs' Hact q Hq.
  destruct (fs !! (path file +:+ ".tmp")) as [n|]; [|discriminate].
  injection Hact as _ <-.
  rewrite lookup_insert_ne, lookup_delete_ne; [reflexivity | |];
    intros <-; apply Hq; [now right | now left].
Qed.

Lemma writeToFile_returns (w : World) file data :
  (writeToFile file data w).1 = Ok tt /\
  untouched (fun q => q = path file \/ q = path file +:+ ".tmp")
            w (writeToFile file data w).2.
Proof.
  pose proof (confined_writeToFile_task file data w) as Hc.
  unfold writeToFile, try_catch, then_.
  destruct (writeToFile_task file data w) as [[[]|e] w1]; cbn [fst snd] in *.
  - split; [reflexivity | exact Hc].
  - split; [reflexivity | exact Hc].
Qed.

(** Whatever the lines and whichever primitive is made to fail,
    [writeToFile] returns normally and has touched no path but the target
    and its temporary file. *)
Theorem writeToFile_touches_two_paths (w : World) (file : nsIFile) (data : list string) :
  let w' := (writeToFile file data w).2 in
  (writeToFile file data w).1 = Ok tt /\
  (forall q, q <> path file -> q <> path file +:+ ".tmp" ->
             files w' !! q = files w !! q) /\
  host w' = host w /\ listener w' = listener w.
Proof.
  intros w'. destruct (writeToFile_returns w file data) as [Hok (Hf & Hh & Hl)].
  split; [exact Hok | split; [|split; assumption]].
  intros q H1 H2. apply Hf. tauto.
Qed.

(** A write leaves nothing behind that a later write of the same file
    could see: after any write -- one that succeeded, or one that failed at
    any step and left a temporary file -- a write in which no primitive
    fails gives the files that it gives when run in the place of the first. *)
Theorem last_write_wins (w : World) (file : nsIFile) (d1 d2 : list string) :
  let w1 := (writeToFile file d1 w).2 in
  faults w1 = [] ->
  files (writeToFile file d2 w1).2 = files (writeToFile file d2 (set_faults [] w)).2.
Proof.
  intros w1 Hfl. destruct (writeToFile_returns w file d1) as [_ (Hf & Hh & _)].
  fold w1 in Hf, Hh.
  rewrite (writeToFile_ok w1 file d2 Hfl).
  rewrite (writeToFile_ok (set_faults [] w) file d2 eq_refl).
  cbn [snd upd files set_faults host]. rewrite Hh.
  apply map_eq. intros q.
  destruct (decide (q = path file)) as [->|Hp]; [now rewrite !lookup_insert_eq|].
  rewrite !lookup_insert_ne by congruence.
  destruct (decide (q = path file +:+ ".tmp")) as [->|Ht]; [now rewrite !lookup_delete_eq|].
  rewrite !lookup_delete_ne by congruence. apply Hf. tauto.
Qed.

(** ** Asking about a file just written *)

Lemma stat_run p (w : World) fs fl evs st :
  OS_File_stat p (upd w fs fl evs st) =
  match head fl with
  | Some (Some f) =>
      (match f with
       | Throws _ => Thrown (fault_error f)
       | Rejects _ => Rejected (fault_error f)
       end,
       upd w fs (tail fl) (evs ++ [EvPrim (OpStat p) (Some (fault_error f))]) st)
  | _ =>
      match fs !! p with
      | None => (Rejected (ENOENT p),
                 upd w fs (tail fl) (evs ++ [EvPrim (OpStat p) (Some (ENOENT p))]) st)
      | Some n => (Resolved (info n),
                   upd w fs (tail fl) (evs ++ [EvPrim (OpStat p) None]) st)
      end
  end.
Proof.
  unfold OS_File_stat, prim. cbn [faults files host upd].
  destruct (head fl) as [[[msg|e]|]|]; rewrite ?set_faults_upd, ?log_upd; try reflexivity;
    destruct (fs !! p); now rewrite ?set_files_upd, log_upd.
Qed.

(** After a write in which no primitive failed, [statFile] on the target
    reports a file that exists, is no directory and was last modified at the
    time of the write; on the temporary path it reports that nothing
    exists. *)
Theorem stat_after_write (w : World) (file : nsIFile) (data : list string) :
  faults w = [] ->
  let w1 := (writeToFile file data w).2 in
  let tmp := path file +:+ ".tmp" in
  trace (statFile file w1).2 =
    trace w1 ++ [EvPrim (OpStat (path file)) None;
                 EvCallback None (Some {| exists_ := true; isDirectory := false;
                                          isFile := true;
                                          lastModified := now (host w) |})] /\
  trace (statFile {| path := tmp |} w1).2 =
    trace w1 ++ [EvPrim (OpStat tmp) (Some (ENOENT tmp));
                 EvCallback None (Some missing_stat)].
Proof.
  intros Hfl w1 tmp. subst w1. rewrite (writeToFile_ok w file data Hfl). cbn [snd].
  unfold statFile. rewrite !stat_run. cbn [head path].
  rewrite lookup_insert_eq.
  rewrite lookup_insert_ne by apply tmp_path_fresh.
  fold tmp. rewrite lookup_delete_eq. cbn [ENOENT becauseNoSuchFile].
  unfold callback, emit. rewrite !log_upd. cbn [snd upd trace info regular isDir
    lastModificationDate negb].
  rewrite <- !app_assoc. split; reflexivity.
Qed.

(** ** The operations on whole files *)

Lemma unrecorded_run {A}
    (act : Host -> gmap string Node -> Error + A * gmap string Node)
    (w : World) fs fl evs st :
  settle (unrecorded act) (upd w fs fl evs st) =
  (Ok tt, upd w (op_outcome act (host w) fs fl).2 (tail fl)
              (evs ++ [EvCallback (op_outcome act (host w) fs fl).1 None]) st).
Proof.
  unfold settle, unrecorded, op_outcome, callback, emit. cbn [faults files host upd].
  destruct (head fl) as [[[msg|e]|]|]; cbn [fst snd];
    rewrite ?set_faults_upd, ?log_upd; try reflexivity;
    destruct (act (host w) fs) as [e|[a fs']]; cbn [fst snd];
    now rewrite ?set_files_upd, ?set_faults_upd, log_upd.
Qed.

Lemma settle_unrecorded {A}
    (act : Host -> gmap string Node -> Error + A * gmap string Node) (w : World) :
  settle (unrecorded act) w =
  (Ok tt, upd w (op_outcome act (host w) (files w) (faults w)).2 (tail (faults w))
              [EvCallback (op_outcome act (host w) (files w) (faults w)).1 None]
              (listener w)).
Proof.
  replace (settle (unrecorded act) w)
    with (settle (unrecorded act) (upd w (files w) (faults w) [] (listener w)))
    by now rewrite upd_id.
  now rewrite unrecorded_run.
Qed.

Lemma op_outcome_ok {A}
    (act : Host -> gmap string Node -> Error + A * gmap string Node) h fs fl :
  not_failing fl ->
  op_outcome act h fs fl =
  match act h fs with
  | inl e => (Some e, fs)
  | inr (_, fs') => (None, fs')
  end.
Proof.
  unfold op_outcome, not_failing.
  destruct fl as [|[f|] fl]; cbn; [reflexivity | contradiction | reflexivity].
Qed.

Lemma op_outcome_fault {A}
    (act : Host -> gmap string Node -> Error + A * gmap string Node) h fs f fl :
  op_outcome act h fs (Some f :: fl) = (Some (fault_error f), fs).
Proof. reflexivity. Qed.

(** [removeFile] calls the callback once, and last.  On a path at which
    there is nothing it hands it a no-such-file error and changes no file;
    on a file it removes that file and nothing else and hands it [null];
    made to fail, it hands it the failure and changes no file.  Removing
    twice is not removing once: the second call reports the error. *)
Theorem removeFile_outcome (w : World) (file : nsIFile) :
  let p := path file in
  let w' := (removeFile file w).2 in
  (not_failing (faults w) -> files w !! p = None ->
     trace w' = trace w ++ [EvCallback (Some (ENOENT p)) None] /\ files w' = files w) /\
  (not_failing (faults w) -> is_Some (files w !! p) ->
     trace w' = trace w ++ [EvCallback None None] /\ files w' = delete p (files w) /\
     (not_failing (faults w') ->
      trace (removeFile file w').2 =
        trace w ++ [EvCallback None None; EvCallback (Some (ENOENT p)) None])) /\
  (forall f fl, faults w = Some f :: fl ->
     trace w' = trace w ++ [EvCallback (Some (fault_error f)) None] /\ files w' = files w).
Proof.
  intros p w'. subst w'. unfold removeFile, OS_File_remove. fold p.
  rewrite settle_unrecorded. cbn [snd upd trace files faults].
  split; [|split].
  - intros Hfl Hnone. rewrite op_outcome_ok, Hnone by exact Hfl. now cbn.
  - intros Hfl [n Hn]. rewrite op_outcome_ok, Hn by exact Hfl. cbn [fst snd].
    split; [reflexivity | split; [reflexivity|]].
    intros Hfl'. rewrite unrecorded_run. cbn [snd upd trace].
    rewrite op_outcome_ok, lookup_delete_eq by exact Hfl'. now cbn.
  - intros f fl ->. now rewrite op_outcome_fault.
Qed.

(** [copyFile] calls the callback once, and last.  When the source is
    missing it hands it a no-such-file error and changes no file; otherwise
    the destination -- new, or overwritten -- holds the bytes of the source,
    every other path, the source among them, is as it was, and the callback
    receives [null]. *)
Theorem copyFile_outcome (w : World) (fromFile toFile : nsIFile) :
  let src := path fromFile in
  let dst := path toFile in
  let w' := (copyFile fromFile toFile w).2 in
  (not_failing (faults w) -> files w !! src = None ->
     trace w' = trace w ++ [EvCallback (Some (ENOENT src)) None] /\ files w' = files w) /\
  (forall n, not_failing (faults w) -> files w !! src = Some n ->
     trace w' = trace w ++ [EvCallback None None] /\
     content <$> files w' !! dst = Some (content n) /\
     (forall q, q <> dst -> files w' !! q = files w !! q)) /\
  (forall f fl, faults w = Some f :: fl ->
     trace w' = trace w ++ [EvCallback (Some (fault_error f)) None] /\ files w' = files w).
Proof.
  intros src dst w'. subst w'. unfold copyFile, OS_File_copy. fold src dst.
  rewrite settle_unrecorded. cbn [snd upd trace files].
  split; [|split].
  - intros Hfl Hnone. rewrite op_outcome_ok, Hnone by exact Hfl. now cbn.
  - intros n Hfl Hn. rewrite op_outcome_ok, Hn by exact Hfl. cbn [fst snd].
    split; [reflexivity | split].
    + now rewrite lookup_insert_eq.
    + intros q Hq. now rewrite lookup_insert_ne.
  - intros f fl ->. now rewrite op_outcome_fault.
Qed.

(** Once [removeFile] has removed a file, [statFile] reports that nothing
    exists at its path, and [readFromFile] hands its callback the
    no-such-file error without a single call of the listener. *)
Theorem removed_file_is_gone (w : World) (file : nsIFile) (n : Node) (tid : option string) :
  faults w = [] ->
  files w !! path file = Some n ->
  let p := path file in
  let w1 := (removeFile file w).2 in
  trace (statFile file w1).2 =
    trace w1 ++ [EvPrim (OpStat p) (Some (ENOENT p)); EvCallback None (Some missing_stat)] /\
  trace (readFromFile file tid w1).2 =
    trace w1 ++ marker tid EvAsyncStart ++ [EvPrim (OpRead p) (Some (ENOENT p))] ++
    marker tid EvAsyncDone ++ [EvCallback (Some (ENOENT p)) None].
Proof.
  intros Hfl Hn p w1. subst p w1. unfold removeFile, OS_File_remove.
  rewrite settle_unrecorded, Hfl. cbn [snd tail].
  rewrite op_outcome_ok by exact I. rewrite Hn. cbn [fst snd]. split.
  - unfold statFile. rewrite stat_run. cbn [head].
    rewrite lookup_delete_eq. cbn [ENOENT becauseNoSuchFile].
    unfold callback, emit. rewrite log_upd. cbn [snd upd trace].
    now rewrite <- !app_assoc.
  - rewrite readFromFile_upd. cbn [snd upd trace]. unfold reader_events, read_outcome.
    cbn [head]. rewrite lookup_delete_eq. now rewrite <- !app_assoc.
Qed.

(** Read with [readFromFile], the copy that [copyFile] made delivers the
    lines of the original. *)
Theorem copy_reads_like_original (w : World) (fromFile toFile : nsIFile) (n : Node)
    (tid : option string) (st' : L) :
  faults w = [] ->
  files w !! path fromFile = Some n ->
  accepts (listener w) (map Some (lines (decode (content n))) ++ [None]) st' ->
  let w1 := (copyFile fromFile toFile w).2 in
  process_calls (trace (readFromFile toFile tid w1).2) =
  process_calls (trace w) ++ map Some (lines (decode (content n))) ++ [None].
Proof.
  intros Hfl Hn Hacc w1.
  assert (Hw1 : w1 = upd w (<[path toFile :=
                    {| info := {| isDir := isDir (info n);
                                  lastModificationDate := now (host w) |};
                       content := content n |}]> (files w)) []
                    [EvCallback None None] (listener w)).
  { subst w1. unfold copyFile, OS_File_copy. rewrite settle_unrecorded, Hfl.
    cbn [snd tail]. rewrite op_outcome_ok by exact I. now rewrite Hn. }
  destruct (reader_calls w1 toFile tid
              {| info := {| isDir := isDir (info n);
                            lastModificationDate := now (host w) |};
                 content := content n |} st') as [Hcalls _].
  - now rewrite Hw1.
  - rewrite Hw1. cbn [files upd]. apply lookup_insert_eq.
  - rewrite Hw1. exact Hacc.
  - rewrite Hcalls, Hw1. cbn [trace upd content].
    rewrite process_calls_app. cbn [process_calls]. now rewrite app_nil_r.
Qed.

Lemma move_run src dst (w : World) fs fl evs st :
  settle (OS_File_move src dst) (upd w fs fl evs st) =
  (Ok tt,
   match head fl with
   | Some (Some f) =>
       upd w fs (tail fl)
           (evs ++ [EvPrim (OpMove src dst) (Some (fault_error f));
                    EvCallback (Some (fault_error f)) None]) st
   | _ =>
       match fs !! src with
       | None =>
           upd w fs (tail fl)
               (evs ++ [EvPrim (OpMove src dst) (Some (ENOENT src));
                        EvCallback (Some (ENOENT src)) None]) st
       | Some n =>
           upd w (<[dst := n]> (delete src fs)) (tail fl)
               (evs ++ [EvPrim (OpMove src dst) None; EvCallback None None]) st
       end
   end).
Proof.
  unfold settle, OS_File_move, prim, callback, emit. cbn [faults files host upd].
  destruct (head fl) as [[[msg|e]|]|];
    rewrite ?set_faults_upd, ?log_upd, <- ?app_assoc; try reflexivity;
    destruct (fs !! src);
    now rewrite ?set_files_upd, ?set_faults_upd, !log_upd, <- ?app_assoc.
Qed.

Lemma renameFile_run x fromFile newName toFile (w : World) :
  clone_leafName x fromFile newName = inr toFile ->
  renameFile x fromFile newName w =
  settle (OS_File_move (path fromFile) (path toFile))
         (upd w (files w) (faults w) [] (listener w)).
Proof. intros Hx. unfold renameFile. now rewrite Hx, upd_id. Qed.

(** [renameFile] calls the callback once, and last.  When the new name is
    refused it calls no primitive and hands the callback what was thrown;
    when the source is missing the move fails and the callback receives the
    no-such-file error, no file having changed; otherwise the file is at its
    new path (over whatever was there), its old path is free, every other
    path is as it was, and the callback receives [null]. *)
Theorem renameFile_outcome (x : XPCOM) (w : World) (fromFile : nsIFile) (newName : string) :
  let src := path fromFile in
  let w' := (renameFile x fromFile newName w).2 in
  (forall e, clone_leafName x fromFile newName = inl e ->
     trace w' = trace w ++ [EvCallback (Some e) None] /\ files w' = files w) /\
  (forall toFile, clone_leafName x fromFile newName = inr toFile ->
     not_failing (faults w) ->
     let dst := path toFile in
     (files w !! src = None ->
        trace w' = trace w ++ [EvPrim (OpMove src dst) (Some (ENOENT src));
                               EvCallback (Some (ENOENT src)) None] /\
        files w' = files w) /\
     (forall n, files w !! src = Some n ->
        trace w' = trace w ++ [EvPrim (OpMove src dst) None; EvCallback None None] /\
        files w' !! dst = Some n /\
        (src <> dst -> files w' !! src = None) /\
        (forall q, q <> src -> q <> dst -> files w' !! q = files w !! q))).
Proof.
  intros src w'. subst w'. split.
  - intros e Hx. unfold renameFile. rewrite Hx. now cbn.
  - intros toFile Hx Hfl dst. rewrite (renameFile_run _ _ _ _ _ Hx), move_run.
    fold src dst. cbn [snd app].
    assert (Hhead : match head (faults w) with Some (Some _) => False | _ => True end).
    { unfold not_failing in Hfl. now destruct (faults w) as [|[f|] fl]. }
    split.
    + intros Hnone. rewrite Hnone.
      destruct (head (faults w)) as [[f|]|]; [contradiction | now cbn..].
    + intros n Hn. rewrite Hn.
      destruct (head (faults w)) as [[f|]|]; [contradiction | |];
        cbn [upd trace files];
        (split; [reflexivity | split; [apply lookup_insert_eq | split]]);
        [ intros Hne; now rewrite lookup_insert_ne, lookup_delete_eq
        | intros q H1 H2; now rewrite lookup_insert_ne, lookup_delete_ne
        | intros Hne; now rewrite lookup_insert_ne, lookup_delete_eq
        | intros q H1 H2; now rewrite lookup_insert_ne, lookup_delete_ne ].
Qed.

(** Renaming a file to a name that is free, and back to its old name,
    gives the files there were. *)
Theorem rename_and_back (x : XPCOM) (w : World) (f g f' : nsIFile) (a b : string) (n : Node) :
  faults w = [] ->
  clone_leafName x f b = inr g ->
  clone_leafName x g a = inr f' ->
  path f' = path f ->
  files w !! path f = Some n ->
  files w !! path g = None ->
  let w1 := (renameFile x f b w).2 in
  files (renameFile x g a w1).2 = files w.
Proof.
  intros Hfl Hg Hf' Hpath Hn Hfree w1.
  assert (Hne : path f <> path g) by congruence.
  assert (Hw1 : w1 = upd w (<[path g := n]> (delete (path f) (files w))) []
                       [EvPrim (OpMove (path f) (path g)) None; EvCallback None None]
                       (listener w)).
  { subst w1. rewrite (renameFile_run _ _ _ _ _ Hg), move_run, Hfl, Hn. reflexivity. }
  rewrite (renameFile_run _ _ _ _ _ Hf'), Hw1, Hpath. cbn [files faults listener upd].
  rewrite upd_upd, move_run. cbn [head snd]. rewrite lookup_insert_eq. cbn [files upd].
  apply map_eq. intros q.
  destruct (decide (q = path f)) as [->|Hq]; [now rewrite lookup_insert_eq|].
  rewrite lookup_insert_ne by congruence.
  destruct (decide (q = path g)) as [->|Hq']; [now rewrite lookup_delete_eq|].
  now rewrite lookup_delete_ne, lookup_insert_ne, lookup_delete_ne by congruence.
Qed.

(** ** Exceptions stay inside *)

(** No operation lets an exception out to its caller -- whatever the
    files, whichever primitive is made to fail, whatever the listener does --
    and [readFromFile] and [statFile] change no file. *)
Theorem no_exception_escapes (x : XPCOM) (w : World) (file other : nsIFile)
    (data : list string) (tid : option string) (newName : string) :
  ((readFromFile file tid w).1 = Ok tt /\ files (readFromFile file tid w).2 = files w) /\
  (writeToFile file data w).1 = Ok tt /\
  ((statFile file w).1 = Ok tt /\ files (statFile file w).2 = files w) /\
  (copyFile file other w).1 = Ok tt /\
  (renameFile x file newName w).1 = Ok tt /\
  (removeFile file w).1 = Ok tt.
Proof.
  split; [|split; [|split; [|split; [|split]]]].
  - now rewrite readFromFile_run.
  - apply writeToFile_returns.
  - unfold statFile, OS_File_stat, prim, callback, emit.
    destruct (head (faults w)) as [[[msg|e]|]|]; cbn [fst snd]; try (now split).
    + destruct (becauseNoSuchFile e); now split.
    + destruct (files w !! path file); now split.
    + destruct (files w !! path file); now split.
  - unfold copyFile, OS_File_copy. now rewrite settle_unrecorded.
  - unfold renameFile. destruct (clone_leafName x file newName) as [e|toFile];
      [reflexivity|].
    replace w with (upd w (files w) (faults w) [] (listener w)) by apply upd_id.
    now rewrite move_run.
  - unfold removeFile, OS_File_remove. now rewrite settle_unrecorded.
Qed.

(** ** [resolveFilePath] *)

Lemma split_slash_nonempty (s : string) : split_slash s <> [].
Proof.
  induction s as [|c s IH]; cbn; [discriminate|].
  destruct (Ascii.eqb c SLASH); [discriminate|].
  destruct (split_slash s); discriminate.
Qed.

Lemma join_split_slash (s : string) : join (String SLASH "") (split_slash s) = s.
Proof.
  induction s as [|c s IH]; [reflexivity|]. cbn [split_slash].
  destruct (Ascii.eqb_spec c SLASH) as [->|Hc].
  - pose proof (split_slash_nonempty s) as Hne.
    destruct (split_slash s) as [|piece pieces] eqn:E; [congruence|].
    change (join (String SLASH "") ("" :: piece :: pieces))
      with ("" +:+ String SLASH "" +:+ join (String SLASH "") (piece :: pieces)).
    now rewrite IH.
  - pose proof (split_slash_nonempty s) as Hne.
    destruct (split_slash s) as [|piece pieces] eqn:E; [congruence|].
    destruct pieces as [|piece' pieces].
    + cbn in *. now rewrite IH.
    + change (join (String SLASH "") (String c piece :: piece' :: pieces))
        with (String c (piece +:+ String SLASH "" +:+ join (String SLASH "") (piece' :: pieces))).
      change (join (String SLASH "") (piece :: piece' :: pieces))
        with (piece +:+ String SLASH "" +:+ join (String SLASH "") (piece' :: pieces)) in IH.
      now rewrite IH.
Qed.

Lemma split_slash_free (s : string) : Forall slash_free (split_slash s).
Proof.
  induction s as [|c s IH]; cbn [split_slash]; [repeat constructor|].
  destruct (Ascii.eqb c SLASH) eqn:Hc; [constructor; [reflexivity | exact IH]|].
  destruct (split_slash s) as [|piece pieces]; [repeat constructor; unfold slash_free; cbn; now rewrite Hc|].
  inversion IH as [|? ? Hp Hps]; subst. constructor; [|exact Hps].
  unfold slash_free in *. cbn. now rewrite Hc, Hp.
Qed.

(** [resolveFilePath] gives [null] for no path and for the empty path
    without asking XPCOM.  For any other path the file of the absolute
    reading wins whenever XPCOM accepts that reading; only when it is
    refused is the profile directory asked, for the pieces of the path
    between its slashes -- pieces free of slashes which, joined by slashes,
    are the path -- and the result is [null] exactly when this is refused
    too. *)
Theorem resolveFilePath_cases (x : XPCOM) (p : string) :
  resolveFilePath x None = None /\
  resolveFilePath x (Some "") = None /\
  (p <> "" ->
   (forall file, FileUtils_File x p = inr file -> resolveFilePath x (Some p) = Some file) /\
   (forall e, FileUtils_File x p = inl e ->
      exists pieces,
        join (String SLASH "") pieces = p /\ Forall slash_free pieces /\
        resolveFilePath x (Some p) =
          match FileUtils_getFile x "ProfD" pieces with
          | inr file => Some file
          | inl _ => None
          end)).
Proof.
  split; [reflexivity | split; [reflexivity|]].
  intros Hp. apply String.eqb_neq in Hp.
  unfold resolveFilePath, truthy. rewrite Hp. cbn [negb]. split.
  - now intros file ->.
  - intros e ->. exists (split_slash p).
    split; [apply join_split_slash | split; [apply split_slash_free | reflexivity]].
Qed.

(** ** The getter [lineBreak] *)

Lemma lineBreak_accesses_defined (hs : list Host) (lb : string) :
  lineBreak_accesses hs (Some lb) = repeat lb (length hs).
Proof. induction hs as [|h hs IH]; cbn; [reflexivity | now rewrite IH]. Qed.

(** Every access to [IO.lineBreak] returns the value the first access
    computed, carriage return and line feed on WINNT and a line feed
    elsewhere, whatever the platform reports at the later accesses: with a
    platform that does not change, every access returns [lineBreak] of it. *)
Theorem lineBreak_memoized (h : Host) (hs : list Host) :
  lineBreak_accesses (h :: hs) None = repeat (lineBreak h) (S (length hs)) /\
  (appinfo_OS h = "WINNT" -> lineBreak h = String CR (String LF "")) /\
  (appinfo_OS h <> "WINNT" -> lineBreak h = String LF "").
Proof.
  split; [|split].
  - cbn. now rewrite lineBreak_accesses_defined.
  - intros Hos. unfold lineBreak. now rewrite Hos.
  - intros Hos. unfold lineBreak. apply String.eqb_neq in Hos. now rewrite Hos.
Qed.

End IO.

Arguments files {L} w.
Arguments faults {L} w.
Arguments trace {L} w.
Arguments listener {L} w.
Arguments host {L} w.
Arguments readFromFile decode {L} process file timeLineID.
Arguments writeToFile encode {L} file data.
Arguments write_lines encode {L} f lb data buf bufLen.
Arguments statFile {L} file.
Arguments accepts {L} process st args st'.
Arguments boot {L} h fs fl st.

(** * Concrete runs *)

Lemma ascii_encode_app (s t : string) :
  ascii_encode (s +:+ t) = ascii_encode s ++ ascii_encode t.
Proof.
  unfold ascii_encode, list_byte_of_string. rewrite <- map_app. f_equal.
  induction s as [|c s IH]; cbn; [reflexivity | now rewrite IH].
Qed.

Lemma ascii_codec_faithful : faithful_codec ascii_encode ascii_decode.
Proof.
  split; [apply string_of_list_byte_of_string | apply ascii_encode_app].
Qed.

(** ** Witnesses *)

Lemma readFromFile_delivers_witness :
  not_failing (faults (boot linux (holding scenario_text) [] tt)) /\
  files (boot linux (holding scenario_text) [] tt) !! path patterns_ini =
    Some (regular 0 (ascii_encode scenario_text)) /\
  accepts recorder tt (map Some (lines scenario_text) ++ [None]) tt /\
  process_calls
    (trace (readFromFile ascii_decode recorder patterns_ini (Some "FilterStorageRead")
              (boot linux (holding scenario_text) [] tt)).2) =
  [Some "x"; Some "y"; None].
Proof.
  assert (H1 : not_failing (faults (boot linux (holding scenario_text) [] tt))) by exact I.
  assert (H2 : files (boot linux (holding scenario_text) [] tt) !! path patterns_ini =
               Some (regular 0 (ascii_encode scenario_text))) by reflexivity.
  assert (H3 : accepts recorder tt (map Some (lines scenario_text) ++ [None]) tt)
    by (repeat econstructor).
  split; [exact H1 | split; [exact H2 | split; [exact H3|]]].
  exact (proj2 (proj2 (readFromFile_delivers ascii_decode unit recorder
                         (boot linux (holding scenario_text) [] tt) patterns_ini
                         (Some "FilterStorageRead") _ tt H1 H2 H3)) eq_refl).
Defined.

Lemma readFromFile_listener_throws_witness :
  not_failing (faults (boot linux (holding scenario_text) [] tt)) /\
  files (boot linux (holding scenario_text) [] tt) !! path patterns_ini =
    Some (regular 0 (ascii_encode scenario_text)) /\
  lines scenario_text = ["x"] ++ "y" :: [] /\
  accepts (refusing "y" bad_filter) tt (map Some ["x"]) tt /\
  refusing "y" bad_filter (Some "y") tt = (tt, Some bad_filter) /\
  trace (readFromFile ascii_decode (refusing "y" bad_filter) patterns_ini
           (Some "FilterStorageRead") (boot linux (holding scenario_text) [] tt)).2 =
  [EvAsyncStart "FilterStorageRead"; EvPrim (OpRead "/profile/patterns.ini") None;
   EvAsyncEnd "FilterStorageRead"; EvProcess (Some "x"); EvProcess (Some "y");
   EvAsyncDone "FilterStorageRead"; EvCallback (Some bad_filter) None].
Proof.
  assert (H1 : not_failing (faults (boot linux (holding scenario_text) [] tt))) by exact I.
  assert (H2 : files (boot linux (holding scenario_text) [] tt) !! path patterns_ini =
               Some (regular 0 (ascii_encode scenario_text))) by reflexivity.
  assert (H3 : lines scenario_text = ["x"] ++ "y" :: []) by reflexivity.
  assert (H4 : accepts (refusing "y" bad_filter) tt (map Some ["x"]) tt)
    by (repeat econstructor).
  assert (H5 : refusing "y" bad_filter (Some "y") tt = (tt, Some bad_filter))
    by reflexivity.
  repeat (split; [assumption|]).
  exact (proj1 (readFromFile_listener_throws ascii_decode unit (refusing "y" bad_filter)
                  (boot linux (holding scenario_text) [] tt) patterns_ini
                  (Some "FilterStorageRead") _ ["x"] [] "y" tt tt bad_filter
                  H1 H2 H3 H4 H5)).
Defined.

Lemma write_read_round_trip_witness :
  faithful_codec ascii_encode ascii_decode /\
  faults (boot winnt ∅ [] tt) = [] /\
  (forall arg st, (recorder arg st).2 = None) /\
  Forall (fun line => line <> "" /\ no_break line) ["[Adblock Plus 2.0]"; "||ads.example^"] /\
  process_calls
    (trace (readFromFile ascii_decode recorder patterns_ini None
              (writeToFile ascii_encode patterns_ini
                 ["[Adblock Plus 2.0]"; "||ads.example^"] (boot winnt ∅ [] tt)).2).2) =
  [Some "[Adblock Plus 2.0]"; Some "||ads.example^"; None].
Proof.
  assert (H1 : faults (boot winnt ∅ [] tt) = []) by reflexivity.
  assert (H2 : forall arg st, (recorder arg st).2 = None) by reflexivity.
  assert (H3 : Forall (fun line => line <> "" /\ no_break line)
                 ["[Adblock Plus 2.0]"; "||ads.example^"]).
  { repeat constructor; (discriminate || reflexivity). }
  split; [exact ascii_codec_faithful | split; [exact H1 | split; [exact H2 | split; [exact H3|]]]].
  exact (proj2 (write_read_round_trip ascii_encode ascii_decode unit recorder
                  (boot winnt ∅ [] tt) patterns_ini _ None
                  ascii_codec_faithful H1 H2 H3)).
Defined.

Lemma chunking_invariant_witness :
  js_length line40k = 40000 /\
  faults (boot linux ∅ [] tt) = [] /\
  trace (writeToFile ascii_encode patterns_ini [line40k] (boot linux ∅ [] tt)).2 =
  [EvPrim (OpOpen patterns_tmp) None;
   EvPrim (OpWrite patterns_tmp (ascii_encode (line40k +:+ String LF ""))) None;
   EvPrim (OpFlush patterns_tmp) None;
   EvPrim (OpClose patterns_tmp) None;
   EvPrim (OpMove patterns_tmp "/profile/patterns.ini") None;
   EvCallback None None].
Proof.
  assert (H1 : js_length line40k = 40000) by (vm_compute; reflexivity).
  assert (H2 : faults (boot linux ∅ [] tt) = []) by reflexivity.
  split; [exact H1 | split; [exact H2|]].
  exact (proj2 (proj2 (proj2 (chunking_invariant ascii_encode unit (boot linux ∅ [] tt)
                                {| fd_path := patterns_tmp; has_flush := true |}
                                (String LF "") line40k [] 0 patterns_ini)) H1 H2)).
Defined.

Lemma statFile_translation_witness :
  files (boot linux ∅ [] tt) !! path patterns_ini = None /\
  trace (statFile patterns_ini (statFile patterns_ini (boot linux ∅ [] tt)).2).2 =
  [EvPrim (OpStat "/profile/patterns.ini") (Some (ENOENT "/profile/patterns.ini"));
   EvCallback None (Some missing_stat);
   EvPrim (OpStat "/profile/patterns.ini") (Some (ENOENT "/profile/patterns.ini"));
   EvCallback None (Some missing_stat)].
Proof.
  assert (H1 : files (boot linux ∅ [] tt) !! path patterns_ini = None) by reflexivity.
  split; [exact H1|].
  exact (proj1 (proj2 (proj2 (proj2 (statFile_translation unit (boot linux ∅ [] tt)
                                       patterns_ini))) H1 I I)).
Defined.

Lemma writeToFile_below_threshold_witness :
  faults (boot winnt ∅ [] tt) = [] /\
  total_length ["a"; "b"; "c"] < BUFFER_SIZE /\
  0 < total_length ["a"; "b"; "c"] /\
  files (writeToFile ascii_encode patterns_ini ["a"; "b"; "c"] (boot winnt ∅ [] tt)).2
    !! "/profile/patterns.ini" =
  Some (regular 1400000000000
          (ascii_encode ("a" +:+ String CR (String LF "") +:+
                         "b" +:+ String CR (String LF "") +:+
                         "c" +:+ String CR (String LF "")))).
Proof.
  assert (H1 : faults (boot winnt ∅ [] tt) = []) by reflexivity.
  assert (H2 : total_length ["a"; "b"; "c"] < BUFFER_SIZE) by reflexivity.
  assert (H3 : 0 < total_length ["a"; "b"; "c"]) by reflexivity.
  split; [exact H1 | split; [exact H2 | split; [exact H3|]]].
  exact (proj2 (proj1 (writeToFile_below_threshold ascii_encode unit (boot winnt ∅ [] tt)
                         patterns_ini ["a"; "b"; "c"] H1 H2) H3)).
Defined.

(** Two lines of 17,000 characters and a short one take two flushes: one
    in the loop after the second line, and the final one; they come back
    as written. *)
Example round_trip_two_flushes :
  let line := string_of_list_ascii (repeat "f"%char (Z.to_nat 17000)) in
  let data := [line; line; "tail"] in
  let w1 := (writeToFile ascii_encode patterns_ini data (boot linux ∅ [] tt)).2 in
  length (List.filter (fun ev => match ev with EvPrim (OpWrite _ _) _ => true | _ => false end)
                      (trace w1)) = 2%nat /\
  process_calls (trace (readFromFile ascii_decode recorder patterns_ini None w1).2) =
  map Some data ++ [None].
Proof.
  cbv zeta. split; [vm_compute; reflexivity|].
  refine (bool_decide_eq_true_1 _ _). vm_compute. reflexivity.
Qed.

(** A write that fails in the first chunk: the callback receives the
    failure, nothing is called after the failed write, the target keeps its
    old content and the truncated temporary file stays behind. *)
Example write_failure_keeps_target :
  let w := boot linux (holding "old") [None; Some (Rejects disk_full)] tt in
  let w' := (writeToFile ascii_encode patterns_ini ["new"] w).2 in
  trace w' =
    [EvPrim (OpOpen patterns_tmp) None;
     EvPrim (OpWrite patterns_tmp (ascii_encode ("new" +:+ String LF ""))) (Some disk_full);
     EvCallback (Some disk_full) None] /\
  files w' !! "/profile/patterns.ini" = Some (regular 0 (ascii_encode "old")) /\
  files w' !! patterns_tmp = Some (regular 1400000000000 []).
Proof. cbv zeta. repeat split; vm_compute; reflexivity. Qed.

(** ** Where the code departs from the specification *)

(** C1 fails as stated: a blank line among the lines written is lost on the way back: written
    as an empty line of the file, it is a run of no characters to
    [IO.lines], which yields no token for it.  So the round trip is not the
    identity on every sequence of lines. *)
Lemma round_trip_loses_blank_line :
  process_calls
    (trace (readFromFile ascii_decode recorder patterns_ini None
              (writeToFile ascii_encode patterns_ini ["a"; ""; "b"]
                 (boot linux ∅ [] tt)).2).2) =
  [Some "a"; Some "b"; None] /\
  [Some "a"; Some "b"; None] <> map Some ["a"; ""; "b"] ++ [@None string].
Proof. split; [vm_compute; reflexivity | discriminate]. Qed.

(** C3: on the single empty line the loop leaves the line in the buffer
    with the counter at 0; the test [if (bufLen)] then skips the final
    flush, no write is issued and the file is moved into place empty: the
    line appended never reaches it. *)
Theorem final_flush_skipped_on_empty_line :
  (write_lines ascii_encode {| fd_path := patterns_tmp; has_flush := true |}
     (String LF "") [""] [] 0 (boot linux ∅ [] tt)).1 = Ok ([""], 0) /\
  trace (writeToFile ascii_encode patterns_ini [""] (boot linux ∅ [] tt)).2 =
    [EvPrim (OpOpen patterns_tmp) None;
     EvPrim (OpFlush patterns_tmp) None;
     EvPrim (OpClose patterns_tmp) None;
     EvPrim (OpMove patterns_tmp "/profile/patterns.ini") None;
     EvCallback None None] /\
  files (writeToFile ascii_encode patterns_ini [""] (boot linux ∅ [] tt)).2
    !! "/profile/patterns.ini" = Some (regular 1400000000000 []).
Proof. repeat split; vm_compute; reflexivity. Qed.

(** C7: the lines "a", "b", "c" are written in one flush as a LF b LF c LF,
    and the empty sequence gives an empty file without any write; but the
    non-empty sequence of one empty line, far below the threshold, is not
    written as one line break in one flush: there is no write at all and
    the file is empty. *)
Theorem small_inputs_written :
  let run data := (writeToFile ascii_encode patterns_ini data (boot linux ∅ [] tt)).2 in
  let write text := EvPrim (OpWrite patterns_tmp (ascii_encode text)) None in
  let rest :=
    [EvPrim (OpFlush patterns_tmp) None;
     EvPrim (OpClose patterns_tmp) None;
     EvPrim (OpMove patterns_tmp "/profile/patterns.ini") None;
     EvCallback None None] in
  let abc := String "a" (String LF (String "b" (String LF (String "c" (String LF ""))))) in
  (trace (run ["a"; "b"; "c"]) = EvPrim (OpOpen patterns_tmp) None :: write abc :: rest /\
   content <$> files (run ["a"; "b"; "c"]) !! "/profile/patterns.ini" =
     Some (ascii_encode abc)) /\
  (trace (run []) = EvPrim (OpOpen patterns_tmp) None :: rest /\
   content <$> files (run []) !! "/profile/patterns.ini" = Some []) /\
  (trace (run [""]) = EvPrim (OpOpen patterns_tmp) None :: rest /\
   content <$> files (run [""]) !! "/profile/patterns.ini" = Some [] /\
   content <$> files (run [""]) !! "/profile/patterns.ini" <>
     Some (ascii_encode (String LF ""))).
Proof. cbv zeta. repeat split; try (vm_compute; reflexivity). vm_compute. discriminate. Qed.

(** ** The further properties at concrete inputs *)

Arguments copyFile {L} fromFile toFile.
Arguments renameFile {L} x fromFile newName.
Arguments removeFile {L} file.

Lemma lines_app_breaks_witness :
  String CR (String LF "") <> "" /\
  only_breaks (String CR (String LF "")) /\
  lines ("[Adblock]" +:+ String CR (String LF "") +:+ scenario_text) =
  ["[Adblock]"; "x"; "y"].
Proof.
  assert (H1 : String CR (String LF "") <> "") by discriminate.
  assert (H2 : only_breaks (String CR (String LF ""))) by reflexivity.
  split; [exact H1 | split; [exact H2|]].
  exact (lines_app_breaks "[Adblock]" (String CR (String LF "")) scenario_text H1 H2).
Defined.

Lemma resave_delivers_same_lines_witness :
  faithful_codec ascii_encode ascii_decode /\
  faults (boot winnt ∅ [] tt) = [] /\
  (forall arg st, (recorder arg st).2 = None) /\
  process_calls
    (trace (readFromFile ascii_decode recorder patterns_ini None
              (writeToFile ascii_encode patterns_ini (lines scenario_text)
                 (boot winnt ∅ [] tt)).2).2) =
  [Some "x"; Some "y"; None].
Proof.
  assert (H1 : faults (boot winnt ∅ [] tt) = []) by reflexivity.
  assert (H2 : forall arg st, (recorder arg st).2 = None) by reflexivity.
  split; [exact ascii_codec_faithful | split; [exact H1 | split; [exact H2|]]].
  exact (resave_delivers_same_lines ascii_encode ascii_decode unit recorder
           (boot winnt ∅ [] tt) patterns_ini scenario_text None
           ascii_codec_faithful H1 H2).
Defined.


Lemma last_write_wins_witness :
  faults (writeToFile ascii_encode patterns_ini ["new"]
            (boot linux (holding "old") [None; Some (Rejects disk_full)] tt)).2 = [] /\
  files (writeToFile ascii_encode patterns_ini ["newer"]
           (writeToFile ascii_encode patterns_ini ["new"]
              (boot linux (holding "old") [None; Some (Rejects disk_full)] tt)).2).2 =
  files (writeToFile ascii_encode patterns_ini ["newer"]
           (boot linux (holding "old") [] tt)).2.
Proof.
  assert (H1 : faults (writeToFile ascii_encode patterns_ini ["new"]
                 (boot linux (holding "old") [None; Some (Rejects disk_full)] tt)).2 = [])
    by reflexivity.
  split; [exact H1|].
  exact (last_write_wins ascii_encode unit
           (boot linux (holding "old") [None; Some (Rejects disk_full)] tt)
           patterns_ini ["new"] ["newer"] H1).
Defined.

Lemma stat_after_write_witness :
  faults (boot linux ∅ [] tt) = [] /\
  trace (statFile patterns_ini
           (writeToFile ascii_encode patterns_ini ["a"] (boot linux ∅ [] tt)).2).2 =
  trace (writeToFile ascii_encode patterns_ini ["a"] (boot linux ∅ [] tt)).2 ++
  [EvPrim (OpStat "/profile/patterns.ini") None;
   EvCallback None (Some {| exists_ := true; isDirectory := false; isFile := true;
                            lastModified := 1400000000000 |})].
Proof.
  assert (H1 : faults (boot linux ∅ [] tt) = []) by reflexivity.
  split; [exact H1|].
  exact (proj1 (stat_after_write ascii_encode unit (boot linux ∅ [] tt)
                  patterns_ini ["a"] H1)).
Defined.

Lemma removed_file_is_gone_witness :
  faults (boot linux (holding scenario_text) [] tt) = [] /\
  files (boot linux (holding scenario_text) [] tt) !! path patterns_ini =
    Some (regular 0 (ascii_encode scenario_text)) /\
  trace (readFromFile ascii_decode recorder patterns_ini (Some "FilterStorageRead")
           (removeFile patterns_ini (boot linux (holding scenario_text) [] tt)).2).2 =
  [EvCallback None None; EvAsyncStart "FilterStorageRead";
   EvPrim (OpRead "/profile/patterns.ini") (Some (ENOENT "/profile/patterns.ini"));
   EvAsyncDone "FilterStorageRead";
   EvCallback (Some (ENOENT "/profile/patterns.ini")) None].
Proof.
  assert (H1 : faults (boot linux (holding scenario_text) [] tt) = []) by reflexivity.
  assert (H2 : files (boot linux (holding scenario_text) [] tt) !! path patterns_ini =
               Some (regular 0 (ascii_encode scenario_text))) by reflexivity.
  split; [exact H1 | split; [exact H2|]].
  exact (proj2 (removed_file_is_gone ascii_decode unit recorder
                  (boot linux (holding scenario_text) [] tt) patterns_ini _
                  (Some "FilterStorageRead") H1 H2)).
Defined.

Lemma copy_reads_like_original_witness :
  faults (boot linux (holding scenario_text) [] tt) = [] /\
  files (boot linux (holding scenario_text) [] tt) !! path patterns_ini =
    Some (regular 0 (ascii_encode scenario_text)) /\
  accepts recorder tt (map Some (lines scenario_text) ++ [None]) tt /\
  process_calls
    (trace (readFromFile ascii_decode recorder backup_ini None
              (copyFile patterns_ini backup_ini
                 (boot linux (holding scenario_text) [] tt)).2).2) =
  [Some "x"; Some "y"; None].
Proof.
  assert (H1 : faults (boot linux (holding scenario_text) [] tt) = []) by reflexivity.
  assert (H2 : files (boot linux (holding scenario_text) [] tt) !! path patterns_ini =
               Some (regular 0 (ascii_encode scenario_text))) by reflexivity.
  assert (H3 : accepts recorder tt (map Some (lines scenario_text) ++ [None]) tt)
    by (repeat econstructor).
  split; [exact H1 | split; [exact H2 | split; [exact H3|]]].
  exact (copy_reads_like_original ascii_decode unit recorder
           (boot linux (holding scenario_text) [] tt) patterns_ini backup_ini _
           None tt H1 H2 H3).
Defined.

Lemma rename_and_back_witness :
  faults (boot linux (holding scenario_text) [] tt) = [] /\
  clone_leafName unix patterns_ini "patterns-backup1.ini" = inr backup_ini /\
  clone_leafName unix backup_ini "patterns.ini" = inr patterns_ini /\
  files (boot linux (holding scenario_text) [] tt) !! path patterns_ini =
    Some (regular 0 (ascii_encode scenario_text)) /\
  files (boot linux (holding scenario_text) [] tt) !! path backup_ini = None /\
  files (renameFile unix backup_ini "patterns.ini"
           (renameFile unix patterns_ini "patterns-backup1.ini"
              (boot linux (holding scenario_text) [] tt)).2).2 =
  holding scenario_text.
Proof.
  assert (H1 : faults (boot linux (holding scenario_text) [] tt) = []) by reflexivity.
  assert (H2 : clone_leafName unix patterns_ini "patterns-backup1.ini" = inr backup_ini)
    by reflexivity.
  assert (H3 : clone_leafName unix backup_ini "patterns.ini" = inr patterns_ini)
    by reflexivity.
  assert (H4 : files (boot linux (holding scenario_text) [] tt) !! path patterns_ini =
               Some (regular 0 (ascii_encode scenario_text))) by reflexivity.
  assert (H5 : files (boot linux (holding scenario_text) [] tt) !! path backup_ini = None)
    by reflexivity.
  repeat (split; [assumption|]).
  exact (rename_and_back unit unix (boot linux (holding scenario_text) [] tt)
           patterns_ini backup_ini patterns_ini "patterns.ini" "patterns-backup1.ini"
           _ H1 H2 H3 eq_refl H4 H5).
Defined.

(** The outcomes of the operations on whole files, and the resolution of
    paths, on the files of a profile. *)
Example file_operations_run :
  let w := boot linux (holding scenario_text) [] tt in
  trace (removeFile backup_ini w).2 =
    [EvCallback (Some (ENOENT "/profile/patterns-backup1.ini")) None] /\
  files (removeFile patterns_ini w).2 = ∅ /\
  trace (copyFile backup_ini patterns_ini w).2 =
    [EvCallback (Some (ENOENT "/profile/patterns-backup1.ini")) None] /\
  trace (renameFile unix patterns_ini "" w).2 = [EvCallback (Some unrecognized_path) None] /\
  trace (renameFile unix patterns_ini "patterns-backup1.ini" w).2 =
    [EvPrim (OpMove "/profile/patterns.ini" "/profile/patterns-backup1.ini") None;
     EvCallback None None] /\
  resolveFilePath unix (Some "/profile/patterns.ini") = Some patterns_ini /\
  resolveFilePath unix (Some "patterns.ini") = Some patterns_ini /\
  resolveFilePath unix (Some "") = None /\
  lineBreak_accesses [winnt; linux; linux] None =
    [String CR (String LF ""); String CR (String LF ""); String CR (String LF "")].
Proof. cbv zeta. repeat split; vm_compute; reflexivity. Qed.

Lemma removeFile_outcome_witness :
  not_failing (faults (boot linux (holding scenario_text) [] tt)) /\
  is_Some (files (boot linux (holding scenario_text) [] tt) !! path patterns_ini) /\
  files (removeFile patterns_ini (boot linux (holding scenario_text) [] tt)).2 =
  delete "/profile/patterns.ini" (holding scenario_text).
Proof.
  assert (H1 : not_failing (faults (boot linux (holding scenario_text) [] tt))) by exact I.
  assert (H2 : is_Some (files (boot linux (holding scenario_text) [] tt)
                          !! path patterns_ini)) by (eexists; reflexivity).
  split; [exact H1 | split; [exact H2|]].
  exact (proj1 (proj2 (proj1 (proj2 (removeFile_outcome unit
                                       (boot linux (holding scenario_text) [] tt)
                                       patterns_ini)) H1 H2))).
Defined.

Lemma copyFile_outcome_witness :
  not_failing (faults (boot linux (holding scenario_text) [] tt)) /\
  files (boot linux (holding scenario_text) [] tt) !! path patterns_ini =
    Some (regular 0 (ascii_encode scenario_text)) /\
  content <$> files (copyFile patterns_ini backup_ini
                       (boot linux (holding scenario_text) [] tt)).2
                !! path backup_ini =
  Some (ascii_encode scenario_text).
Proof.
  assert (H1 : not_failing (faults (boot linux (holding scenario_text) [] tt))) by exact I.
  assert (H2 : files (boot linux (holding scenario_text) [] tt) !! path patterns_ini =
               Some (regular 0 (ascii_encode scenario_text))) by reflexivity.
  split; [exact H1 | split; [exact H2|]].
  exact (proj1 (proj2 (proj1 (proj2 (copyFile_outcome unit
                                       (boot linux (holding scenario_text) [] tt)
                                       patterns_ini backup_ini)) _ H1 H2))).
Defined.

Lemma renameFile_outcome_witness :
  clone_leafName unix patterns_ini "patterns-backup1.ini" = inr backup_ini /\
  not_failing (faults (boot linux (holding scenario_text) [] tt)) /\
  files (boot linux (holding scenario_text) [] tt) !! path patterns_ini =
    Some (regular 0 (ascii_encode scenario_text)) /\
  files (renameFile unix patterns_ini "patterns-backup1.ini"
           (boot linux (holding scenario_text) [] tt)).2 !! path backup_ini =
  Some (regular 0 (ascii_encode scenario_text)).
Proof.
  assert (H1 : clone_leafName unix patterns_ini "patterns-backup1.ini" = inr backup_ini)
    by reflexivity.
  assert (H2 : not_failing (faults (boot linux (holding scenario_text) [] tt))) by exact I.
  assert (H3 : files (boot linux (holding scenario_text) [] tt) !! path patterns_ini =
               Some (regular 0 (ascii_encode scenario_text))) by reflexivity.
  split; [exact H1 | split; [exact H2 | split; [exact H3|]]].
  exact (proj1 (proj2 (proj2 (proj2 (renameFile_outcome unit unix
                                       (boot linux (holding scenario_text) [] tt)
                                       patterns_ini "patterns-backup1.ini")
                                    backup_ini H1 H2) _ H3))).
Defined.

Lemma resolveFilePath_cases_witness :
  "patterns/custom.ini" <> "" /\
  FileUtils_File unix "patterns/custom.ini" = inl unrecognized_path /\
  exists pieces,
    join (String SLASH "") pieces = "patterns/custom.ini" /\
    Forall slash_free pieces /\
    resolveFilePath unix (Some "patterns/custom.ini") =
      match FileUtils_getFile unix "ProfD" pieces with
      | inr file => Some file
      | inl _ => None
      end.
Proof.
  assert (H1 : "patterns/custom.ini" <> "") by discriminate.
  assert (H2 : FileUtils_File unix "patterns/custom.ini" = inl unrecognized_path)
    by reflexivity.
  split; [exact H1 | split; [exact H2|]].
  exact (proj2 (proj2 (proj2 (resolveFilePath_cases unix "patterns/custom.ini")) H1)
           unrecognized_path H2).
Defined.
